(** * Width tables of tools/unicode_dbl_width.py

    A shallow embedding of the generator that turns the per-code-point
    records of the Unicode character database into the two dispatch
    tables of termptydbl.c and the fast-path threshold of termptydbl.h,
    and the properties of its extraction, merge, filter and emission
    passes. *)

From Stdlib Require Import List String Ascii Bool NArith Arith Lia Sorted.
From Stdlib Require Import Hexadecimal HexadecimalPos HexadecimalN.
Import ListNotations.

Local Open Scope string_scope.
Local Open Scope N_scope.
Local Open Scope list_scope.

(** ** Exceptions and fallible computations *)

(** The exceptions the script can raise on the paths modelled here. *)
Inductive exn : Type :=
| AssertionError   (* assert ea in ('N', 'A', 'W') *)
| TypeError        (* None in 'F' *)
| IndexError.      (* ranges[0] on an empty list *)

Inductive result (A : Type) : Type :=
| Ok (a : A)
| Raise (e : exn).

Arguments Ok {A} a.
Arguments Raise {A} e.

Definition bind {A B : Type} (m : result A) (k : A -> result B) : result B :=
  match m with
  | Ok a => k a
  | Raise e => Raise e
  end.

Notation "x <- m ;; k" := (bind m (fun x => k))
  (at level 61, m at next level, right associativity).

(** ** Data model *)

(** Range = namedtuple('range', ['width', 'start', 'end']).  The width is
    the string the script stores; code points are hexadecimal numerals. *)
Record Range : Type := mkRange {
  width : string;
  start : N;
  end_ : N
}.

(** range._replace(end=e) *)
Definition replace_end (r : Range) (e : N) : Range :=
  mkRange (width r) (start r) e.

(** A <char> element of the repertoire, through the three attributes the
    script reads with c.get: [None] is Python's None (attribute absent).
    The cp attribute is kept as the number its hexadecimal text denotes;
    [None] there stands for an absent or empty attribute, the two cases
    [if not cp] skips. *)
Record char : Type := mkChar {
  ea : option string;
  cp : option N;
  ExtPict : option string
}.

(** ** Python membership tests *)

(** x in (s1, ..., sn): equality with an element of a tuple. *)
Definition in_tuple (x : option string) (t : list string) : bool :=
  match x with
  | None => false
  | Some s => existsb (String.eqb s) t
  end.

(** s in t for two strings: s occurs in t as a substring. *)
Fixpoint str_in (s t : string) : bool :=
  prefix s t ||
  match t with
  | EmptyString => false
  | String _ t' => str_in s t'
  end.

(** ** get_ranges *)

(** Lines 24-29: the normalisation of the ea attribute and its assertion.
    [('F')] is a parenthesised string, not a tuple, so the second test is
    a substring test, which raises TypeError on None. *)
Definition normalize_ea (raw : option string) : result string :=
  let ea1 := if in_tuple raw ["Na"; "H"] then Some "N" else raw in
  match ea1 with
  | None => Raise TypeError
  | Some s =>
      let ea2 := if str_in s "F" then "W" else s in
      if in_tuple (Some ea2) ["N"; "A"; "W"] then Ok ea2
      else Raise AssertionError
  end.

(** Lines 33-36: the emoji override. *)
Definition emoji_override (emoji_as_wide : bool) (c : char) (w : string)
  : string :=
  if emoji_as_wide then
    match ExtPict c with
    | Some m => if String.eqb m "Y" then "W" else w
    | None => w
    end
  else w.

(** The loop of lines 23-43, with its two variables [ranges] and [range]. *)
Fixpoint get_ranges_loop (emoji_as_wide : bool) (chars : list char)
  (ranges : list Range) (range : Range) : result (list Range) :=
  match chars with
  | [] => Ok (ranges ++ [range])
  | c :: chars' =>
      w <- normalize_ea (ea c) ;;
      match cp c with
      | None => get_ranges_loop emoji_as_wide chars' ranges range
      | Some p =>
          let w' := emoji_override emoji_as_wide c w in
          if negb (String.eqb w' (width range)) then
            get_ranges_loop emoji_as_wide chars'
              (ranges ++ [range]) (mkRange w' p p)
          else
            get_ranges_loop emoji_as_wide chars' ranges (replace_end range p)
      end
  end.

Definition get_ranges (chars : list char) (emoji_as_wide : bool)
  : result (list Range) :=
  get_ranges_loop emoji_as_wide chars [] (mkRange "N" 0 0).

(** ** merge_ranges and skip_ranges *)

Fixpoint merge_loop (is_same_width : Range -> Range -> bool)
  (rs : list Range) (res : list Range) (range : Range) : list Range :=
  match rs with
  | [] => res ++ [range]
  | r :: rs' =>
      if is_same_width r range then
        merge_loop is_same_width rs' res (replace_end range (end_ r))
      else
        merge_loop is_same_width rs' (res ++ [range]) r
  end.

(** [ranges[0]] raises IndexError on the empty list; the loop then runs
    over the whole list, its first element included. *)
Definition merge_ranges (ranges : list Range)
  (is_same_width : Range -> Range -> bool) : result (list Range) :=
  match ranges with
  | [] => Raise IndexError
  | range :: _ => Ok (merge_loop is_same_width ranges [] range)
  end.

Definition skip_ranges (ranges : list Range) (width_skipped : list string)
  : list Range :=
  filter (fun r => negb (in_tuple (Some (width r)) width_skipped)) ranges.

(** ** The two policies *)

Module Ambiguous.

Definition is_same_width (r1 r2 : Range) : bool :=
  if String.eqb (width r1) "N" then String.eqb (width r2) "N"
  else in_tuple (Some (width r2)) ["A"; "W"].

Definition width_skipped : list string := ["N"].

End Ambiguous.

Module Wide.

Definition is_same_width (r1 r2 : Range) : bool :=
  if in_tuple (Some (width r1)) ["N"; "A"] then
    in_tuple (Some (width r2)) ["N"; "A"]
  else String.eqb (width r2) "W".

Definition width_skipped : list string := ["N"; "A"].

End Wide.

(** ** Emission *)

(** A line written inside the switch: [case 0xS:] or [case 0xS ... 0xE:],
    followed by the text held in [fallthrough] at that moment. *)
Inductive case_line : Type :=
| CaseSingle (s : N) (fallthrough : string)
| CaseSpan (s e : N) (fallthrough : string).

Definition marker (l : case_line) : string :=
  match l with
  | CaseSingle _ f => f
  | CaseSpan _ _ f => f
  end.

Definition EINA_FALLTHROUGH : string := " EINA_FALLTHROUGH;".

(** The emission loop shared by gen_ambigous (lines 113-122) and gen_wide
    (lines 149-158): [idx] is the index enumerate gives, [len] is
    len(ranges), [continued] the widths on which the body continues. *)
Fixpoint emit_loop (continued : list string) (len : nat) (idx : nat)
  (rs : list Range) (fallthrough : string) : list case_line :=
  match rs with
  | [] => []
  | r :: rs' =>
      if in_tuple (Some (width r)) continued then
        emit_loop continued len (S idx) rs' fallthrough
      else
        let fallthrough' :=
          if Nat.eqb idx (len - 1)%nat then "" else fallthrough in
        (if N.eqb (start r) (end_ r)
         then CaseSingle (start r) fallthrough'
         else CaseSpan (start r) (end_ r) fallthrough')
        :: emit_loop continued len (S idx) rs' fallthrough'
  end.

Definition emit_cases (continued : list string) (ranges : list Range)
  : list case_line :=
  emit_loop continued (List.length ranges) 0%nat ranges EINA_FALLTHROUGH.

(** The RangeSet a policy keeps: lines 110-111 and 147-148.  [ranges[1:]]
    is [tl], which is empty on the empty list as the slice is. *)
Definition ambiguous_table (ranges : list Range) : result (list Range) :=
  merged <- merge_ranges (tl ranges) Ambiguous.is_same_width ;;
  Ok (skip_ranges merged Ambiguous.width_skipped).

Definition wide_table (ranges : list Range) : result (list Range) :=
  merged <- merge_ranges (tl ranges) Wide.is_same_width ;;
  Ok (skip_ranges merged Wide.width_skipped).

(** The case lines of _termpty_is_ambigous_wide and _termpty_is_wide. *)
Definition gen_ambigous (ranges : list Range) : result (list case_line) :=
  table <- ambiguous_table ranges ;;
  Ok (emit_cases ["N"] table).

Definition gen_wide (ranges : list Range) : result (list case_line) :=
  table <- wide_table ranges ;;
  Ok (emit_cases ["N"; "A"] table).

(** gen_header: the constant of [if (g <= 0x...)]. *)
Definition gen_header (range : Range) : N := end_ range.

Record generated : Type := mkGenerated {
  threshold : N;
  ambiguous_cases : list case_line;
  wide_cases : list case_line
}.

Definition gen_c (ranges : list Range) : result generated :=
  match ranges with
  | [] => Raise IndexError
  | r0 :: _ =>
      let t := gen_header r0 in
      amb <- gen_ambigous ranges ;;
      wide <- gen_wide ranges ;;
      Ok (mkGenerated t amb wide)
  end.

(** The script's last two lines, with emoji_as_wide = True. *)
Definition main (chars : list char) : result generated :=
  ranges <- get_ranges chars true ;;
  gen_c ranges.

(** ** The generated C, read back *)

(** A case label matches the scrutinee g. *)
Definition case_matches (g : N) (l : case_line) : bool :=
  match l with
  | CaseSingle s _ => N.eqb g s
  | CaseSpan s e _ => N.leb s g && N.leb g e
  end.

(** The value of the generated switch: EINA_TRUE when a label matches. *)
Definition switch_value (cases : list case_line) (g : N) : bool :=
  existsb (case_matches g) cases.

(** A Range contains a code point. *)
Definition contains (r : Range) (p : N) : bool :=
  N.leb (start r) p && N.leb p (end_ r).

(** ** The quantities the properties speak of *)

(** The effective class of an entry that bears a code point: the value
    of [ea] when line 39 reads it. *)
Definition effective_class (emoji_as_wide : bool) (c : char)
  : result string :=
  w <- normalize_ea (ea c) ;;
  Ok (emoji_override emoji_as_wide c w).

(** The code points of the stream, in stream order. *)
Definition code_points (chars : list char) : list N :=
  flat_map (fun c => match cp c with Some p => [p] | None => [] end) chars.

Definition increasing (l : list N) : Prop := Sorted N.lt l.

(** The three width strings. *)
Definition width_class (w : string) : Prop := w = "N" \/ w = "A" \/ w = "W".

(** The (class, code point) pairs the loop acts on, or the exception the
    first offending record raises. *)
Fixpoint entries (emoji_as_wide : bool) (chars : list char)
  : result (list (string * N)) :=
  match chars with
  | [] => Ok []
  | c :: chars' =>
      w <- normalize_ea (ea c) ;;
      rest <- entries emoji_as_wide chars' ;;
      Ok (match cp c with
          | None => rest
          | Some p => (emoji_override emoji_as_wide c w, p) :: rest
          end)
  end.

(** The ranges the loop closes from a given accumulator, over pairs. *)
Fixpoint runs (range : Range) (es : list (string * N)) : list Range :=
  match es with
  | [] => [range]
  | (w, p) :: es' =>
      if negb (String.eqb w (width range)) then
        range :: runs (mkRange w p p) es'
      else runs (replace_end range p) es'
  end.

(** The last code point of the maximal leading run of class [w], from a
    run that already ends at [e]. *)
Fixpoint run_end (w : string) (e : N) (es : list (string * N)) : N :=
  match es with
  | [] => e
  | (w', p) :: es' => if String.eqb w' w then run_end w p es' else e
  end.

(** The end of the first maximal Narrow run starting at code point 0. *)
Definition narrow_run_end (es : list (string * N)) : N := run_end "N" 0 es.

(** Order between two ranges: the first ends before the second starts. *)
Definition before (r1 r2 : Range) : Prop := end_ r1 < start r2.

Definition well_formed (r : Range) : Prop := start r <= end_ r.

(** Non-overlapping and strictly increasing by start. *)
Definition disjoint_increasing (ranges : list Range) : Prop :=
  forall (i j : nat) r1 r2, (i < j)%nat ->
    nth_error ranges i = Some r1 -> nth_error ranges j = Some r2 ->
    end_ r1 < start r2 /\ start r1 < start r2.



(** The entry of code point 0, when there is one, is Narrow: what the
    initial accumulator Range('N', 0, 0) takes for granted. *)
Definition zero_is_narrow (chars : list char) (emoji_as_wide : bool)
  : Prop :=
  forall c, In c chars -> cp c = Some 0 ->
    effective_class emoji_as_wide c = Ok "N".

(** The fold as the design words it: the accumulator starts as the first
    Range and only the subsequent Ranges are processed. *)
Fixpoint fold_from (is_same_width : Range -> Range -> bool)
  (acc : Range) (rs : list Range) : list Range :=
  match rs with
  | [] => [acc]
  | r :: rs' =>
      if is_same_width r acc then
        fold_from is_same_width (replace_end acc (end_ r)) rs'
      else acc :: fold_from is_same_width r rs'
  end.

Definition merge_spec (is_same_width : Range -> Range -> bool)
  (first : Range) (subsequent : list Range) : list Range :=
  fold_from is_same_width first subsequent.

(** No two neighbours of [out] are equivalent under [same]. *)
Definition adjacent_differ (same : Range -> Range -> bool)
  (out : list Range) : Prop :=
  forall (i : nat) r1 r2,
    nth_error out i = Some r1 -> nth_error out (S i) = Some r2 ->
    same r1 r2 = false.

(** What the remaining pairs must satisfy for the accumulator [range]:
    they increase strictly, and each lies beyond the accumulator's end,
    or on it with the accumulator's own width. *)
Definition above (range : Range) (es : list (string * N)) : Prop :=
  StronglySorted N.lt (map snd es) /\
  Forall (fun e => end_ range < snd e \/
                   (snd e = end_ range /\ fst e = width range)) es.

(** Ranges sorted by start and by end. *)
Definition nondecreasing (a b : Range) : Prop :=
  start a <= start b /\ end_ a <= end_ b.

(** The case line of a Range, with the marker [f]. *)
Definition case_of (r : Range) (f : string) : case_line :=
  if N.eqb (start r) (end_ r) then CaseSingle (start r) f
  else CaseSpan (start r) (end_ r) f.

(** The lines of a table none of whose ranges is passed over: every line
    but the last carries the marker. *)
Fixpoint labelled (rs : list Range) : list case_line :=
  match rs with
  | [] => []
  | r :: rs' =>
      match rs' with
      | [] => [case_of r ""]
      | _ :: _ => case_of r EINA_FALLTHROUGH :: labelled rs'
      end
  end.

(** Single-point ranges become a single match value, the others an
    inclusive bounded match. *)
Definition shape (r : Range) (l : case_line) : Prop :=
  (start r = end_ r -> exists f, l = CaseSingle (start r) f) /\
  (start r <> end_ r -> exists f, l = CaseSpan (start r) (end_ r) f).

(** Every line but the last carries the marker; the last carries none. *)
Definition fallthrough_chain (lines : list case_line) : Prop :=
  forall (i : nat) l, nth_error lines i = Some l ->
    marker l = if Nat.eqb (S i) (List.length lines) then ""
               else EINA_FALLTHROUGH.

(** The record bears a code point: the test of line 31, negated. *)
Definition has_cp (c : char) : bool :=
  match cp c with Some _ => true | None => false end.


(** Neighbouring ranges record different widths. *)
Definition adjacent_widths_differ (ranges : list Range) : Prop :=
  forall (i : nat) r1 r2,
    nth_error ranges i = Some r1 -> nth_error ranges (S i) = Some r2 ->
    width r1 <> width r2.

(** The inline function that gen_header writes into termptydbl.h, over
    the constant and the two switches of one run; [cjk_ambiguous_wide]
    is ty->termstate.cjk_ambiguous_wide. *)
Definition termpty_is_dblwidth_get (out : generated)
  (cjk_ambiguous_wide : bool) (g : N) : bool :=
  if N.leb g (threshold out) then false
  else if negb cjk_ambiguous_wide then switch_value (wide_cases out) g
  else switch_value (ambiguous_cases out) g.

(** The Range is Wide. *)
Definition is_W (r : Range) : bool := String.eqb (width r) "W".

(** The digits of a hexadecimal numeral in upper case, as the format
    specification [:X] of lines 82, 120 and 122 prints them. *)
Fixpoint hex_upper (d : Hexadecimal.uint) : string :=
  match d with
  | Hexadecimal.Nil => ""
  | Hexadecimal.D0 d' => String "0" (hex_upper d')
  | Hexadecimal.D1 d' => String "1" (hex_upper d')
  | Hexadecimal.D2 d' => String "2" (hex_upper d')
  | Hexadecimal.D3 d' => String "3" (hex_upper d')
  | Hexadecimal.D4 d' => String "4" (hex_upper d')
  | Hexadecimal.D5 d' => String "5" (hex_upper d')
  | Hexadecimal.D6 d' => String "6" (hex_upper d')
  | Hexadecimal.D7 d' => String "7" (hex_upper d')
  | Hexadecimal.D8 d' => String "8" (hex_upper d')
  | Hexadecimal.D9 d' => String "9" (hex_upper d')
  | Hexadecimal.Da d' => String "A" (hex_upper d')
  | Hexadecimal.Db d' => String "B" (hex_upper d')
  | Hexadecimal.Dc d' => String "C" (hex_upper d')
  | Hexadecimal.Dd d' => String "D" (hex_upper d')
  | Hexadecimal.De d' => String "E" (hex_upper d')
  | Hexadecimal.Df d' => String "F" (hex_upper d')
  end.

(** f"{n:X}": the shortest upper-case hexadecimal numeral of n, "0" for
    zero. *)
Definition format_X (n : N) : string := hex_upper (N.to_hex_uint n).

(** The value of a hexadecimal digit of a C literal, in either case,
    from its character code. *)
Definition hex_digit (a : ascii) : option N :=
  let c := N_of_ascii a in
  if N.leb 48 c && N.leb c 57 then Some (c - 48)
  else if N.leb 65 c && N.leb c 70 then Some (c - 55)
  else if N.leb 97 c && N.leb c 102 then Some (c - 87)
  else None.

Fixpoint read_hex_from (s : string) (acc : N) : option N :=
  match s with
  | EmptyString => Some acc
  | String a s' =>
      match hex_digit a with
      | Some v => read_hex_from s' (16 * acc + v)
      | None => None
      end
  end.

(** The value a C compiler gives the digits after [0x]; there must be
    at least one digit. *)
Definition read_hex (s : string) : option N :=
  match s with
  | EmptyString => None
  | String _ _ => read_hex_from s 0
  end.

(** * Properties *)

(** ** Normalisation *)

Lemma str_in_F (s : string) : str_in s "F" = true <-> s = "" \/ s = "F".
Proof.
  split.
  - destruct s as [| a s]; [now left |].
    destruct s as [| b s].
    + simpl. rewrite orb_false_r.
      destruct (Ascii.ascii_dec a "F") as [-> | _]; [now right | discriminate].
    + simpl. destruct (Ascii.ascii_dec a "F"); discriminate.
  - intros [-> | ->]; reflexivity.
Qed.

Lemma in_tuple_In (s : string) (t : list string) :
  in_tuple (Some s) t = true <-> In s t.
Proof.
  unfold in_tuple. rewrite existsb_exists. split.
  - intros (x & Hx & E). apply String.eqb_eq in E. now subst.
  - intros H. exists s. split; [assumption | apply String.eqb_refl].
Qed.

Lemma normalize_ea_class raw w : normalize_ea raw = Ok w -> width_class w.
Proof.
  unfold normalize_ea.
  destruct (if in_tuple raw ["Na"; "H"] then Some "N" else raw) as [s |];
    [| discriminate].
  set (v := if str_in s "F" then "W" else s).
  destruct (in_tuple (Some v) ["N"; "A"; "W"]) eqn:E; [| discriminate].
  intros [= <-]. apply in_tuple_In in E. unfold width_class.
  simpl in E. intuition congruence.
Qed.

Lemma emoji_override_class b c w :
  width_class w -> width_class (emoji_override b c w).
Proof.
  unfold emoji_override. intros H.
  destruct b; [| assumption].
  destruct (ExtPict c) as [m |]; [| assumption].
  destruct (String.eqb m "Y"); [right; now right | assumption].
Qed.

(** The raw values the normalisation accepts. *)
Lemma normalize_ea_accepts (s : string) :
  (exists w, normalize_ea (Some s) = Ok w) <->
  In s ["Na"; "N"; "H"; "A"; "W"; "F"; ""].
Proof.
  split.
  - intros [w H]. unfold normalize_ea in H.
    destruct (in_tuple (Some s) ["Na"; "H"]) eqn:E1.
    + apply in_tuple_In in E1. simpl in *. intuition.
    + destruct (str_in s "F") eqn:E2.
      * apply str_in_F in E2. simpl. intuition.
      * destruct (in_tuple (Some s) ["N"; "A"; "W"]) eqn:E3; [| discriminate].
        apply in_tuple_In in E3. simpl in *. intuition.
  - simpl. intros H.
    repeat (destruct H as [<- | H]; [eexists; reflexivity |]).
    contradiction.
Qed.

(** ** Extraction: the loop and its ranges *)

Lemma get_ranges_loop_runs b chars : forall ranges range,
  get_ranges_loop b chars ranges range =
  (es <- entries b chars ;; Ok (ranges ++ runs range es)).
Proof.
  induction chars as [| c chars IH]; intros ranges range; simpl.
  - reflexivity.
  - destruct (normalize_ea (ea c)) as [w | e]; simpl; [| reflexivity].
    destruct (cp c) as [p |].
    + destruct (negb (String.eqb (emoji_override b c w) (width range))) eqn:E.
      * rewrite IH. destruct (entries b chars); simpl; [| reflexivity].
        rewrite E. now rewrite <- app_assoc.
      * rewrite IH. destruct (entries b chars); simpl; [| reflexivity].
        now rewrite E.
    + rewrite IH. now destruct (entries b chars).
Qed.

Lemma get_ranges_runs chars b ranges :
  get_ranges chars b = Ok ranges ->
  exists es, entries b chars = Ok es /\ ranges = runs (mkRange "N" 0 0) es.
Proof.
  unfold get_ranges. rewrite get_ranges_loop_runs.
  destruct (entries b chars) as [es | e]; simpl; [| discriminate].
  intros [= <-]. now exists es.
Qed.

Lemma entries_In b chars : forall es c p,
  entries b chars = Ok es -> In c chars -> cp c = Some p ->
  exists w, effective_class b c = Ok w /\ In (w, p) es.
Proof.
  induction chars as [| c0 chars IH]; intros es c p He Hin Hcp;
    [contradiction |].
  simpl in He.
  destruct (normalize_ea (ea c0)) as [w0 | e] eqn:En; [| discriminate].
  destruct (entries b chars) as [rest | e]; [| discriminate].
  simpl in He. injection He as <-.
  destruct Hin as [-> | Hin].
  - rewrite Hcp. exists (emoji_override b c w0). split; [| now left].
    unfold effective_class. now rewrite En.
  - destruct (IH rest c p eq_refl Hin Hcp) as (w & Hw & Hi).
    exists w. split; [assumption |].
    destruct (cp c0); [now right | assumption].
Qed.

Lemma entries_code_points b chars : forall es,
  entries b chars = Ok es -> map snd es = code_points chars.
Proof.
  induction chars as [| c chars IH]; intros es He; simpl in He.
  - now injection He as <-.
  - destruct (normalize_ea (ea c)); [| discriminate].
    destruct (entries b chars) as [rest |]; [| discriminate].
    simpl in He. injection He as <-. simpl.
    destruct (cp c); simpl; now rewrite (IH rest eq_refl).
Qed.

Lemma entries_class b chars : forall es,
  entries b chars = Ok es -> Forall (fun e => width_class (fst e)) es.
Proof.
  induction chars as [| c chars IH]; intros es He; simpl in He.
  - injection He as <-. constructor.
  - destruct (normalize_ea (ea c)) as [w |] eqn:En; [| discriminate].
    destruct (entries b chars) as [rest |]; [| discriminate].
    simpl in He. injection He as <-.
    specialize (IH rest eq_refl).
    destruct (cp c); [| assumption].
    constructor; [| assumption].
    simpl. apply emoji_override_class. eapply normalize_ea_class, En.
Qed.

(** The first range keeps the accumulator's width and start, and ends
    where the leading run of that width ends. *)
Lemma runs_head es : forall range,
  exists rest,
    runs range es =
    mkRange (width range) (start range) (run_end (width range) (end_ range) es)
    :: rest.
Proof.
  induction es as [| [w p] es IH]; intros range; simpl.
  - destruct range. now exists [].
  - destruct (String.eqb w (width range)) eqn:E; simpl.
    + destruct (IH (replace_end range p)) as [rest ->]. now exists rest.
    + destruct range. eexists. reflexivity.
Qed.

Lemma runs_class es : forall range,
  width_class (width range) ->
  Forall (fun e => width_class (fst e)) es ->
  Forall (fun r => width_class (width r)) (runs range es).
Proof.
  induction es as [| [w p] es IH]; intros range Hr Hes; simpl.
  - now constructor.
  - inversion Hes as [| ? ? Hw Hes']; subst. simpl in Hw.
    destruct (negb (String.eqb w (width range))).
    + constructor; [assumption |]. now apply IH.
    + now apply IH.
Qed.

Lemma above_step range w p es (r' : Range) :
  above range ((w, p) :: es) -> end_ r' = p -> above r' es.
Proof.
  intros [Hs _] He. simpl in Hs.
  inversion Hs as [| ? ? Hs' Hlt]; subst.
  split; [assumption |].
  rewrite Forall_map in Hlt.
  eapply Forall_impl; [| exact Hlt]. intros e H. now left.
Qed.

Lemma above_head range w p es :
  above range ((w, p) :: es) ->
  end_ range < p \/ (p = end_ range /\ w = width range).
Proof. intros [_ Hf]. now inversion Hf. Qed.

Lemma run_end_ge w es : forall e,
  StronglySorted N.lt (e :: map snd es) -> e <= run_end w e es.
Proof.
  induction es as [| [w1 p1] es IH]; intros e Hs; simpl.
  - lia.
  - destruct (String.eqb w1 w); [| lia].
    simpl in Hs. inversion Hs as [| ? ? Hs' Hlt]; subst.
    specialize (IH p1 Hs'). inversion Hlt; subst. lia.
Qed.

Lemma runs_sorted es : forall range,
  well_formed range -> above range es ->
  StronglySorted before (runs range es) /\
  Forall well_formed (runs range es) /\
  Forall (fun r => start range <= start r) (runs range es).
Proof.
  unfold well_formed.
  induction es as [| [w p] es IH]; intros range Hwf Hab; simpl.
  - repeat split; repeat constructor; [assumption | lia].
  - pose proof (above_head _ _ _ _ Hab) as Hp.
    destruct (String.eqb w (width range)) eqn:E; simpl.
    + assert (Hle : end_ range <= p) by (destruct Hp as [? | [-> _]]; lia).
      destruct (IH (replace_end range p)) as (H1 & H2 & H3).
      * simpl. lia.
      * eapply above_step; [exact Hab | reflexivity].
      * auto.
    + assert (Hlt : end_ range < p).
      { destruct Hp as [? | [_ ->]]; [assumption |].
        now rewrite String.eqb_refl in E. }
      destruct (IH (mkRange w p p)) as (H1 & H2 & H3).
      * simpl. lia.
      * eapply above_step; [exact Hab | reflexivity].
      * simpl in H3. repeat split.
        -- constructor; [assumption |].
           eapply Forall_impl; [| exact H3]. unfold before. intros; lia.
        -- now constructor.
        -- constructor; [lia |].
           eapply Forall_impl; [| exact H3]. intros; simpl in *; lia.
Qed.

Lemma runs_cover es : forall range w p,
  well_formed range -> above range es -> In (w, p) es ->
  exists r, In r (runs range es) /\ contains r p = true /\ width r = w.
Proof.
  unfold well_formed, contains.
  induction es as [| [w0 p0] es IH]; intros range w p Hwf Hab Hin;
    [contradiction |].
  pose proof (above_head _ _ _ _ Hab) as Hp. simpl.
  destruct (String.eqb w0 (width range)) eqn:E; simpl.
  - assert (Hle : end_ range <= p0) by (destruct Hp as [? | [-> _]]; lia).
    destruct Hin as [[= -> ->] | Hin].
    + destruct (runs_head es (replace_end range p)) as [rest Hr].
      rewrite Hr. eexists. split; [now left |]. simpl.
      apply String.eqb_eq in E. split; [| now symmetry].
      apply andb_true_intro. split; apply N.leb_le; [lia |].
      apply run_end_ge. now destruct Hab.
    + apply (IH (replace_end range p0)); simpl; [lia | | assumption].
      eapply above_step; [exact Hab | reflexivity].
  - assert (Hab' : above (mkRange w0 p0 p0) es)
      by (eapply above_step; [exact Hab | reflexivity]).
    destruct Hin as [[= -> ->] | Hin].
    + destruct (runs_head es (mkRange w p p)) as [rest Hr].
      rewrite Hr. eexists. split; [right; now left |]. simpl.
      split; [| reflexivity].
      apply andb_true_intro. split; apply N.leb_le; [lia |].
      apply run_end_ge. now destruct Hab.
    + destruct (IH (mkRange w0 p0 p0) w p) as (r & Hr & Hc);
        [simpl; lia | assumption | assumption |].
      exists r. split; [now right | assumption].
Qed.

Lemma entries_In_inv b chars : forall es w p,
  entries b chars = Ok es -> In (w, p) es ->
  exists c, In c chars /\ cp c = Some p /\ effective_class b c = Ok w.
Proof.
  induction chars as [| c0 chars IH]; intros es w p He Hin; simpl in He.
  - injection He as <-. contradiction.
  - destruct (normalize_ea (ea c0)) as [w0 |] eqn:En; [| discriminate].
    destruct (entries b chars) as [rest |]; [| discriminate].
    simpl in He. injection He as <-.
    assert (Hrest : In (w, p) rest ->
              exists c, In c (c0 :: chars) /\ cp c = Some p /\
                        effective_class b c = Ok w).
    { intros H. destruct (IH rest w p eq_refl H) as (c & Hc & Hr).
      exists c. split; [now right | assumption]. }
    destruct (cp c0) as [p0 |] eqn:Ecp; [| auto].
    destruct Hin as [[= <- <-] | Hin]; [| auto].
    exists c0. repeat split; [now left | assumption |].
    unfold effective_class. now rewrite En.
Qed.

Lemma StronglySorted_nth {A : Type} (R : A -> A -> Prop) (l : list A) :
  StronglySorted R l ->
  forall (i j : nat) a b, (i < j)%nat ->
    nth_error l i = Some a -> nth_error l j = Some b -> R a b.
Proof.
  induction 1 as [| x l Hs IH Hall]; intros i j a b Hij Hi Hj.
  - destruct i; discriminate.
  - destruct j as [| j]; [lia |]. simpl in Hj.
    destruct i as [| i]; simpl in Hi.
    + injection Hi as <-. rewrite Forall_forall in Hall.
      eapply Hall, nth_error_In, Hj.
    + apply (IH i j); [lia | assumption | assumption].
Qed.

Lemma sorted_disjoint_increasing ranges :
  StronglySorted before ranges -> Forall well_formed ranges ->
  disjoint_increasing ranges.
Proof.
  intros Hs Hwf i j r1 r2 Hij H1 H2.
  pose proof (StronglySorted_nth _ _ Hs i j r1 r2 Hij H1 H2) as Hb.
  rewrite Forall_forall in Hwf.
  pose proof (Hwf r1 (nth_error_In _ _ H1)) as Hw.
  unfold before, well_formed in *. lia.
Qed.

Lemma contains_bounds r p :
  contains r p = true <-> start r <= p /\ p <= end_ r.
Proof.
  unfold contains. rewrite andb_true_iff, !N.leb_le. reflexivity.
Qed.

Lemma disjoint_contains_unique ranges p (i j : nat) r r' :
  disjoint_increasing ranges ->
  nth_error ranges i = Some r -> contains r p = true ->
  nth_error ranges j = Some r' -> contains r' p = true -> j = i.
Proof.
  intros Hd Hi Hc Hj Hc'.
  apply contains_bounds in Hc, Hc'.
  destruct (Nat.lt_trichotomy i j) as [Hlt | [-> | Hlt]]; [| reflexivity |].
  - destruct (Hd i j r r' Hlt Hi Hj). lia.
  - destruct (Hd j i r' r Hlt Hj Hi). lia.
Qed.

Lemma increasing_strongly l : increasing l -> StronglySorted N.lt l.
Proof.
  apply Sorted_StronglySorted. intros x y z. apply N.lt_trans.
Qed.

Lemma sentinel_above chars b es :
  increasing (code_points chars) -> zero_is_narrow chars b ->
  entries b chars = Ok es -> above (mkRange "N" 0 0) es.
Proof.
  intros Hinc Hz He. split.
  - rewrite (entries_code_points _ _ _ He). now apply increasing_strongly.
  - apply Forall_forall. intros [w p] Hin. simpl.
    destruct (N.eq_dec p 0) as [-> | Hp]; [| left; lia].
    right. split; [reflexivity |].
    destruct (entries_In_inv _ _ _ _ _ He Hin) as (c & Hc & Hcp & Hw).
    rewrite (Hz c Hc Hcp) in Hw. now injection Hw.
Qed.

Lemma get_ranges_sorted chars b ranges :
  increasing (code_points chars) -> zero_is_narrow chars b ->
  get_ranges chars b = Ok ranges ->
  StronglySorted before ranges /\ Forall well_formed ranges.
Proof.
  intros Hinc Hz Hg.
  destruct (get_ranges_runs _ _ _ Hg) as (es & He & ->).
  destruct (runs_sorted es (mkRange "N" 0 0)) as (H1 & H2 & _).
  - unfold well_formed. simpl. lia.
  - eapply sentinel_above; eassumption.
  - now split.
Qed.




(** ** The merge fold *)

Lemma nondecreasing_widen acc x rs :
  StronglySorted nondecreasing (acc :: x :: rs) ->
  StronglySorted nondecreasing (replace_end acc (end_ x) :: rs).
Proof.
  intros Hs.
  inversion Hs as [| ? ? Hs' Hall]; subst.
  inversion Hs' as [| ? ? Hs'' Hall']; subst.
  inversion Hall as [| ? ? _ Hall'']; subst.
  constructor; [assumption |].
  rewrite Forall_forall in *. intros y Hy. unfold nondecreasing in *.
  destruct (Hall' y Hy), (Hall'' y Hy). simpl. lia.
Qed.

Section Merge.

Variable same : Range -> Range -> bool.

Lemma merge_loop_fold rs : forall res range,
  merge_loop same rs res range = res ++ fold_from same range rs.
Proof.
  induction rs as [| r rs IH]; intros res range; simpl.
  - reflexivity.
  - destruct (same r range).
    + apply IH.
    + rewrite IH, <- app_assoc. reflexivity.
Qed.

Lemma fold_from_head rs : forall acc,
  exists e rest,
    fold_from same acc rs = mkRange (width acc) (start acc) e :: rest.
Proof.
  induction rs as [| r rs IH]; intros acc; simpl.
  - destruct acc. now eexists _, [].
  - destruct (same r acc).
    + destruct (IH (replace_end acc (end_ r))) as (e & rest & ->).
      now exists e, rest.
    + destruct acc. now eexists _, _.
Qed.

(** Every merged range starts where some input range starts, with
    that range's width. *)
Lemma fold_from_origin rs : forall acc m,
  In m (fold_from same acc rs) ->
  exists r, In r (acc :: rs) /\ width m = width r /\ start m = start r.
Proof.
  induction rs as [| r rs IH]; intros acc m Hm; simpl in Hm.
  - destruct Hm as [<- | []]. exists acc. split; [now left | now split].
  - destruct (same r acc).
    + destruct (IH _ _ Hm) as (x & [<- | Hx] & Hw & Hs).
      * exists acc. split; [now left | now split].
      * exists x. split; [right; now right | now split].
    + destruct Hm as [<- | Hm].
      * exists acc. split; [now left | now split].
      * destruct (IH _ _ Hm) as (x & Hx & Hw).
        exists x. split; [now right | assumption].
Qed.

Hypothesis same_by_width : forall a b a' b',
  width a = width a' -> width b = width b' -> same a b = same a' b'.

(** The fold never leaves a range next to one it would have merged
    into it; the test reads (later, earlier), as line 53 does. *)
Lemma fold_from_adjacent rs : forall acc (i : nat) r1 r2,
  nth_error (fold_from same acc rs) i = Some r1 ->
  nth_error (fold_from same acc rs) (S i) = Some r2 ->
  same r2 r1 = false.
Proof.
  induction rs as [| r rs IH]; intros acc i r1 r2 H1 H2; simpl in *.
  - destruct i; discriminate.
  - destruct (same r acc) eqn:E.
    + eapply IH; eassumption.
    + destruct i as [| i]; simpl in *.
      * injection H1 as <-.
        destruct (fold_from_head rs r) as (e & rest & Hh).
        rewrite Hh in H2. injection H2 as <-.
        rewrite <- E. now apply same_by_width.
      * eapply IH; eassumption.
Qed.

(** Over ranges sorted by start and by end, the first merged range
    reaches at least the accumulator's end. *)
Lemma fold_from_head_end rs : forall acc,
  StronglySorted nondecreasing (acc :: rs) ->
  exists e rest,
    fold_from same acc rs = mkRange (width acc) (start acc) e :: rest /\
    end_ acc <= e.
Proof.
  induction rs as [| x rs IH]; intros acc Hs; simpl.
  - destruct acc. eexists _, []. split; [reflexivity | simpl; lia].
  - destruct (same x acc).
    + destruct (IH _ (nondecreasing_widen _ _ _ Hs)) as (e & rest & -> & He).
      exists e, rest. split; [reflexivity |].
      inversion Hs as [| ? ? _ Hall]; subst.
      inversion Hall as [| ? ? [_ Hx] _]; subst. simpl in He. lia.
    + destruct acc. eexists _, _. split; [reflexivity | simpl; lia].
Qed.

(** Each input range then lies inside a merged range of its own width
    or of a width it is equivalent to. *)
Lemma fold_from_cover_tail rs : forall acc r,
  StronglySorted nondecreasing (acc :: rs) ->
  In r rs ->
  exists m, In m (fold_from same acc rs) /\
            start m <= start r /\ end_ r <= end_ m /\
            (width m = width r \/ same r m = true).
Proof.
  induction rs as [| x rs IH]; intros acc r Hs Hin; [contradiction |].
  inversion Hs as [| ? ? Hs' Hall]; subst.
  inversion Hall as [| ? ? [Hx1 Hx2] _]; subst.
  simpl. destruct (same x acc) eqn:E.
  - pose proof (nondecreasing_widen _ _ _ Hs) as Hsw.
    destruct Hin as [<- | Hin]; [| now apply IH].
    destruct (fold_from_head_end rs _ Hsw) as (e & rest & -> & He).
    eexists. split; [now left |]. simpl in *.
    repeat split; try lia.
    right. rewrite <- E. now apply same_by_width.
  - destruct Hin as [<- | Hin].
    + destruct (fold_from_head_end rs _ Hs') as (e & rest & -> & He).
      eexists. split; [right; now left |]. simpl.
      repeat split; try lia. now left.
    + destruct (IH _ r Hs' Hin) as (m & Hm & H).
      exists m. split; [now right | assumption].
Qed.

Lemma fold_from_cover rs acc r :
  StronglySorted nondecreasing (acc :: rs) ->
  In r (acc :: rs) ->
  exists m, In m (fold_from same acc rs) /\
            start m <= start r /\ end_ r <= end_ m /\
            (width m = width r \/ same r m = true).
Proof.
  intros Hs [<- | Hin]; [| now apply fold_from_cover_tail].
  destruct (fold_from_head_end rs _ Hs) as (e & rest & -> & He).
  eexists. split; [now left |]. simpl.
  repeat split; try lia. now left.
Qed.

End Merge.

(** ** The two policies *)

Lemma ambiguous_same_by_width a b a' b' :
  width a = width a' -> width b = width b' ->
  Ambiguous.is_same_width a b = Ambiguous.is_same_width a' b'.
Proof. unfold Ambiguous.is_same_width. now intros -> ->. Qed.

Lemma wide_same_by_width a b a' b' :
  width a = width a' -> width b = width b' ->
  Wide.is_same_width a b = Wide.is_same_width a' b'.
Proof. unfold Wide.is_same_width. now intros -> ->. Qed.

Ltac by_classes :=
  unfold width_class in *;
  repeat match goal with
         | H : _ \/ _ |- _ => destruct H as [H | H]
         end;
  repeat match goal with
         | H : width _ = _ |- _ => rewrite H in *
         end;
  try reflexivity; try discriminate; auto.

Lemma ambiguous_same_sym a b :
  width_class (width a) -> width_class (width b) ->
  Ambiguous.is_same_width a b = Ambiguous.is_same_width b a.
Proof. unfold Ambiguous.is_same_width. intros Ha Hb. by_classes. Qed.

Lemma wide_same_sym a b :
  width_class (width a) -> width_class (width b) ->
  Wide.is_same_width a b = Wide.is_same_width b a.
Proof. unfold Wide.is_same_width. intros Ha Hb. by_classes. Qed.

Lemma ambiguous_same_refl a :
  width_class (width a) -> Ambiguous.is_same_width a a = true.
Proof. unfold Ambiguous.is_same_width. intros Ha. by_classes. Qed.

Lemma wide_same_refl a :
  width_class (width a) -> Wide.is_same_width a a = true.
Proof. unfold Wide.is_same_width. intros Ha. by_classes. Qed.

(** Outside the three classes neither predicate is reflexive, and the
    loop of [merge_ranges] then emits its first range twice. *)
Remark merge_ranges_unknown_width :
  merge_ranges [mkRange "X" 1 1] Wide.is_same_width
  = Ok [mkRange "X" 1 1; mkRange "X" 1 1] /\
  merge_ranges [mkRange "X" 1 1] Ambiguous.is_same_width
  = Ok [mkRange "X" 1 1; mkRange "X" 1 1].
Proof. split; reflexivity. Qed.

Lemma replace_end_same r : replace_end r (end_ r) = r.
Proof. now destruct r. Qed.

Lemma merge_ranges_fold rs same out :
  merge_ranges rs same = Ok out ->
  exists r0 rest, rs = r0 :: rest /\ out = fold_from same r0 (r0 :: rest).
Proof.
  destruct rs as [| r0 rest]; simpl; [discriminate |].
  intros [= <-]. exists r0, rest. split; [reflexivity |].
  change (merge_loop same (r0 :: rest) [] r0 =
          [] ++ fold_from same r0 (r0 :: rest)).
  apply merge_loop_fold.
Qed.

Lemma merge_ranges_reflexive same r0 rest :
  same r0 r0 = true ->
  merge_ranges (r0 :: rest) same = Ok (fold_from same r0 rest).
Proof.
  intros Hr. unfold merge_ranges. rewrite merge_loop_fold. simpl.
  now rewrite Hr, replace_end_same.
Qed.

Lemma get_ranges_class chars b ranges :
  get_ranges chars b = Ok ranges ->
  Forall (fun r => width_class (width r)) ranges.
Proof.
  intros Hg. destruct (get_ranges_runs _ _ _ Hg) as (es & He & ->).
  apply runs_class; [now left | eapply entries_class, He].
Qed.

Lemma Forall_tl {A : Type} (P : A -> Prop) (l : list A) :
  Forall P l -> Forall P (tl l).
Proof. destruct 1; [constructor | assumption]. Qed.

Lemma merge_ranges_class rs same out :
  Forall (fun r => width_class (width r)) rs ->
  merge_ranges rs same = Ok out ->
  Forall (fun r => width_class (width r)) out.
Proof.
  intros Hc Hm. destruct (merge_ranges_fold _ _ _ Hm) as (r0 & rest & -> & ->).
  rewrite Forall_forall in *. intros m Hin.
  destruct (fold_from_origin _ _ _ _ Hin) as (r & Hr & Hw & _).
  rewrite Hw. apply Hc. destruct Hr as [<- | Hr]; [now left | assumption].
Qed.

(** C3, as amended: on the ranges [get_ranges] returns, first range
    removed, the fold of either policy, before the filter, leaves no two
    adjacent ranges r1, r2 with is_same_width(r1, r2) true. *)
Theorem merge_ranges_adjacent_differ chars b ranges :
  get_ranges chars b = Ok ranges ->
  (forall merged,
     merge_ranges (tl ranges) Ambiguous.is_same_width = Ok merged ->
     adjacent_differ Ambiguous.is_same_width merged) /\
  (forall merged,
     merge_ranges (tl ranges) Wide.is_same_width = Ok merged ->
     adjacent_differ Wide.is_same_width merged).
Proof.
  intros Hg.
  pose proof (Forall_tl _ _ (get_ranges_class _ _ _ Hg)) as Hc.
  split; intros merged Hm i r1 r2 H1 H2;
    pose proof (merge_ranges_class _ _ _ Hc Hm) as Hcm;
    rewrite Forall_forall in Hcm;
    pose proof (Hcm _ (nth_error_In _ _ H1)) as Hc1;
    pose proof (Hcm _ (nth_error_In _ _ H2)) as Hc2;
    destruct (merge_ranges_fold _ _ _ Hm) as (r0 & rest & _ & ->).
  - rewrite ambiguous_same_sym by assumption.
    eapply fold_from_adjacent; [apply ambiguous_same_by_width | |];
      eassumption.
  - rewrite wide_same_sym by assumption.
    eapply fold_from_adjacent; [apply wide_same_by_width | |]; eassumption.
Qed.

Lemma merge_ranges_adjacent_differ_witness :
  adjacent_differ Ambiguous.is_same_width
    [mkRange "W" 1 1; mkRange "N" 2 2; mkRange "A" 3 4] /\
  adjacent_differ Wide.is_same_width
    [mkRange "W" 1 1; mkRange "N" 2 3; mkRange "W" 4 4].
Proof.
  pose (chars := [mkChar (Some "W") (Some 1) None;
                  mkChar (Some "N") (Some 2) None;
                  mkChar (Some "A") (Some 3) None;
                  mkChar (Some "F") (Some 4) None]).
  destruct (merge_ranges_adjacent_differ chars false
              [mkRange "N" 0 0; mkRange "W" 1 1; mkRange "N" 2 2;
               mkRange "A" 3 3; mkRange "W" 4 4] eq_refl) as [Ha Hw].
  split; [apply Ha | apply Hw]; reflexivity.
Defined.

(** C3 fails as stated: after the filter of the wide policy the two Wide
    ranges around a dropped Narrow one are neighbours, and
    is_same_width holds of them; likewise under the ambiguous policy. *)
Lemma filtered_neighbours_same_width :
  let chars := [mkChar (Some "W") (Some 1) None;
                mkChar (Some "N") (Some 2) None;
                mkChar (Some "W") (Some 3) None] in
  exists ranges wide amb,
    get_ranges chars true = Ok ranges /\
    wide_table ranges = Ok wide /\
    ambiguous_table ranges = Ok amb /\
    ~ adjacent_differ Wide.is_same_width wide /\
    ~ adjacent_differ Ambiguous.is_same_width amb.
Proof.
  cbv zeta.
  exists [mkRange "N" 0 0; mkRange "W" 1 1; mkRange "N" 2 2; mkRange "W" 3 3],
         [mkRange "W" 1 1; mkRange "W" 3 3],
         [mkRange "W" 1 1; mkRange "W" 3 3].
  repeat split; try reflexivity;
    intros H; specialize (H 0%nat _ _ eq_refl eq_refl); discriminate.
Qed.

(** C4: every Range of the wide-policy output has width W, and every
    Range of the ambiguous-policy output has width A or W, none N. *)
Theorem tables_keep_only_their_class chars b ranges :
  get_ranges chars b = Ok ranges ->
  (forall table, wide_table ranges = Ok table ->
     Forall (fun r => width r = "W") table) /\
  (forall table, ambiguous_table ranges = Ok table ->
     Forall (fun r => width r <> "N" /\ (width r = "A" \/ width r = "W"))
            table).
Proof.
  intros Hg.
  pose proof (Forall_tl _ _ (get_ranges_class _ _ _ Hg)) as Hc.
  split; intros table Ht.
  - unfold wide_table in Ht.
    destruct (merge_ranges (tl ranges) Wide.is_same_width) as [merged |] eqn:Hm;
      [| discriminate].
    simpl in Ht. injection Ht as <-.
    pose proof (merge_ranges_class _ _ _ Hc Hm) as Hcm.
    rewrite Forall_forall in *. intros r Hr.
    unfold skip_ranges in Hr. apply filter_In in Hr. destruct Hr as [Hr Hk].
    specialize (Hcm r Hr). simpl in Hcm, Hk.
    unfold width_class in Hcm.
    destruct Hcm as [E | [E | E]]; rewrite E in *; try discriminate.
    reflexivity.
  - unfold ambiguous_table in Ht.
    destruct (merge_ranges (tl ranges) Ambiguous.is_same_width)
      as [merged |] eqn:Hm; [| discriminate].
    simpl in Ht. injection Ht as <-.
    pose proof (merge_ranges_class _ _ _ Hc Hm) as Hcm.
    rewrite Forall_forall in *. intros r Hr.
    unfold skip_ranges in Hr. apply filter_In in Hr. destruct Hr as [Hr Hk].
    specialize (Hcm r Hr). simpl in Hcm, Hk.
    unfold width_class in Hcm.
    destruct Hcm as [E | [E | E]]; rewrite E in *; try discriminate;
      (split; [discriminate | auto]).
Qed.

Lemma tables_keep_only_their_class_witness :
  Forall (fun r => width r = "W") [mkRange "W" 12288 12288] /\
  Forall (fun r => width r <> "N" /\ (width r = "A" \/ width r = "W"))
         [mkRange "A" 161 12288].
Proof.
  pose (chars := [mkChar (Some "Na") (Some 65) None;
                  mkChar (Some "A") (Some 161) None;
                  mkChar (Some "W") (Some 12288) None]).
  destruct (tables_keep_only_their_class chars true
              [mkRange "N" 0 65; mkRange "A" 161 161;
               mkRange "W" 12288 12288] eq_refl) as [Hw Ha].
  split; [apply Hw | apply Ha]; reflexivity.
Defined.

(** C9: on a non-empty list of Ranges whose first width is one of the
    three classes, [merge_ranges] under either policy returns what the
    specified fold returns, the one that starts from the first Range and
    processes only the subsequent ones. *)
Theorem merge_ranges_refines_spec first subsequent :
  width_class (width first) ->
  merge_ranges (first :: subsequent) Ambiguous.is_same_width
  = Ok (merge_spec Ambiguous.is_same_width first subsequent) /\
  merge_ranges (first :: subsequent) Wide.is_same_width
  = Ok (merge_spec Wide.is_same_width first subsequent).
Proof.
  intros Hc. split; apply merge_ranges_reflexive;
    [now apply ambiguous_same_refl | now apply wide_same_refl].
Qed.

Lemma merge_ranges_refines_spec_witness :
  merge_ranges [mkRange "A" 161 161; mkRange "W" 162 170; mkRange "N" 171 180]
               Ambiguous.is_same_width
  = Ok [mkRange "A" 161 170; mkRange "N" 171 180] /\
  merge_ranges [mkRange "A" 161 161; mkRange "W" 162 170; mkRange "N" 171 180]
               Wide.is_same_width
  = Ok [mkRange "A" 161 161; mkRange "W" 162 170; mkRange "N" 171 180].
Proof.
  apply (merge_ranges_refines_spec (mkRange "A" 161 161)
           [mkRange "W" 162 170; mkRange "N" 171 180]).
  right. now left.
Defined.

(** ** Emission *)

Lemma emit_loop_labelled continued rs : forall (idx : nat),
  Forall (fun r => in_tuple (Some (width r)) continued = false) rs ->
  emit_loop continued (idx + List.length rs) idx rs EINA_FALLTHROUGH
  = labelled rs.
Proof.
  induction rs as [| r rs IH]; intros idx Hk; [reflexivity |].
  inversion Hk as [| ? ? Hr Hk']; subst.
  cbn [emit_loop labelled]. rewrite Hr. fold (case_of r).
  destruct rs as [| r' rs].
  - simpl. replace (idx + 1 - 1)%nat with idx by lia.
    now rewrite Nat.eqb_refl.
  - replace (Nat.eqb idx (idx + List.length (r :: r' :: rs) - 1)) with false
      by (symmetry; apply Nat.eqb_neq; simpl; lia).
    cbv zeta. fold (case_of r EINA_FALLTHROUGH). f_equal.
    replace (idx + List.length (r :: r' :: rs))%nat
      with (S idx + List.length (r' :: rs))%nat by (simpl; lia).
    now apply IH.
Qed.

Lemma skip_ranges_kept ranges skipped :
  Forall (fun r => in_tuple (Some (width r)) skipped = false)
         (skip_ranges ranges skipped).
Proof.
  apply Forall_forall. intros r Hr. apply filter_In in Hr.
  destruct Hr as [_ Hr]. now apply negb_true_iff in Hr.
Qed.

Lemma emit_cases_skip_ranges ranges skipped :
  emit_cases skipped (skip_ranges ranges skipped)
  = labelled (skip_ranges ranges skipped).
Proof.
  unfold emit_cases.
  apply (emit_loop_labelled skipped _ 0%nat), skip_ranges_kept.
Qed.

Lemma gen_wide_labelled ranges lines :
  gen_wide ranges = Ok lines ->
  exists table, wide_table ranges = Ok table /\ lines = labelled table.
Proof.
  unfold gen_wide. destruct (wide_table ranges) as [table |] eqn:Ht;
    [| discriminate].
  simpl. intros [= <-]. exists table. split; [reflexivity |].
  unfold wide_table in Ht.
  destruct (merge_ranges (tl ranges) Wide.is_same_width); [| discriminate].
  simpl in Ht. injection Ht as <-. apply emit_cases_skip_ranges.
Qed.

Lemma gen_ambigous_labelled ranges lines :
  gen_ambigous ranges = Ok lines ->
  exists table, ambiguous_table ranges = Ok table /\ lines = labelled table.
Proof.
  unfold gen_ambigous. destruct (ambiguous_table ranges) as [table |] eqn:Ht;
    [| discriminate].
  simpl. intros [= <-]. exists table. split; [reflexivity |].
  unfold ambiguous_table in Ht.
  destruct (merge_ranges (tl ranges) Ambiguous.is_same_width);
    [| discriminate].
  simpl in Ht. injection Ht as <-. apply emit_cases_skip_ranges.
Qed.

Lemma marker_case_of r f : marker (case_of r f) = f.
Proof. unfold case_of. now destruct (N.eqb (start r) (end_ r)). Qed.

Lemma shape_case_of r f : shape r (case_of r f).
Proof.
  unfold shape, case_of. destruct (N.eqb_spec (start r) (end_ r)); split;
    intros H; try contradiction; now exists f.
Qed.

Lemma labelled_length rs : List.length (labelled rs) = List.length rs.
Proof.
  induction rs as [| r [| r' rs] IH]; try reflexivity.
  cbn [labelled List.length] in *. now rewrite IH.
Qed.

Lemma labelled_chain rs : fallthrough_chain (labelled rs).
Proof.
  unfold fallthrough_chain.
  induction rs as [| r [| r' rs] IH]; intros i l Hi.
  - destruct i; discriminate.
  - destruct i as [| [| i]]; try discriminate.
    simpl in Hi. injection Hi as <-. apply marker_case_of.
  - change (labelled (r :: r' :: rs))
      with (case_of r EINA_FALLTHROUGH :: labelled (r' :: rs)) in *.
    destruct i as [| i].
    + simpl in Hi. injection Hi as <-. rewrite marker_case_of.
      cbn [List.length]. rewrite labelled_length. reflexivity.
    + simpl in Hi. rewrite (IH i l Hi). reflexivity.
Qed.

Lemma labelled_shape rs : Forall2 shape rs (labelled rs).
Proof.
  induction rs as [| r [| r' rs] IH].
  - constructor.
  - constructor; [apply shape_case_of | constructor].
  - change (labelled (r :: r' :: rs))
      with (case_of r EINA_FALLTHROUGH :: labelled (r' :: rs)).
    constructor; [apply shape_case_of | assumption].
Qed.

Lemma case_matches_case_of r f g :
  case_matches g (case_of r f) = contains r g.
Proof.
  unfold case_of, contains.
  destruct (N.eqb_spec (start r) (end_ r)) as [E | E]; simpl;
    [| reflexivity].
  rewrite <- E.
  destruct (N.eqb_spec g (start r)) as [-> | Hne].
  - now rewrite N.leb_refl.
  - symmetry. apply andb_false_iff.
    destruct (N.leb_spec (start r) g); [right | now left].
    apply N.leb_gt. lia.
Qed.

Lemma switch_value_labelled rs g :
  switch_value (labelled rs) g = existsb (fun r => contains r g) rs.
Proof.
  unfold switch_value.
  induction rs as [| r [| r' rs] IH]; [reflexivity | |].
  - simpl. now rewrite case_matches_case_of.
  - change (labelled (r :: r' :: rs))
      with (case_of r EINA_FALLTHROUGH :: labelled (r' :: rs)).
    cbn [existsb]. now rewrite case_matches_case_of, IH.
Qed.

(** C8: in each of the two generated tables every case line but the last
    carries the fallthrough marker and the last carries none, and the
    lines are those of the policy's table, a single match value for a
    single-point range and an inclusive bounded match otherwise. *)
Theorem case_lines_fallthrough ranges :
  (forall lines, gen_ambigous ranges = Ok lines ->
     fallthrough_chain lines /\
     exists table, ambiguous_table ranges = Ok table /\
                   Forall2 shape table lines) /\
  (forall lines, gen_wide ranges = Ok lines ->
     fallthrough_chain lines /\
     exists table, wide_table ranges = Ok table /\
                   Forall2 shape table lines).
Proof.
  split; intros lines Hl.
  - destruct (gen_ambigous_labelled _ _ Hl) as (table & Ht & ->).
    split; [apply labelled_chain |].
    exists table. split; [assumption | apply labelled_shape].
  - destruct (gen_wide_labelled _ _ Hl) as (table & Ht & ->).
    split; [apply labelled_chain |].
    exists table. split; [assumption | apply labelled_shape].
Qed.

Example case_lines_scenario :
  gen_ambigous [mkRange "N" 0 65; mkRange "A" 161 161;
                mkRange "N" 162 200; mkRange "W" 12288 12290]
  = Ok [CaseSingle 161 EINA_FALLTHROUGH; CaseSpan 12288 12290 ""] /\
  gen_wide [mkRange "N" 0 65; mkRange "A" 161 161;
            mkRange "N" 162 200; mkRange "W" 12288 12290]
  = Ok [CaseSpan 12288 12290 ""].
Proof. split; reflexivity. Qed.

Lemma case_lines_fallthrough_witness :
  fallthrough_chain
    [CaseSingle 161 EINA_FALLTHROUGH; CaseSpan 12288 12290 ""] /\
  fallthrough_chain [CaseSpan 12288 12290 ""].
Proof.
  destruct (case_lines_fallthrough
              [mkRange "N" 0 65; mkRange "A" 161 161;
               mkRange "N" 162 200; mkRange "W" 12288 12290]) as [Ha Hw].
  split.
  - exact (proj1 (Ha _ eq_refl)).
  - exact (proj1 (Hw _ eq_refl)).
Defined.

(** ** The leading placeholder *)

(** C7: the RangeSet [get_ranges] returns is never empty and begins with
    a Range of width N and start 0; both policies merge and filter only
    the Ranges after it, whatever the first one is, and the header takes
    the first Range's end. *)
Theorem get_ranges_placeholder chars b ranges :
  get_ranges chars b = Ok ranges ->
  exists e rest,
    ranges = mkRange "N" 0 e :: rest /\
    ambiguous_table ranges =
      (merged <- merge_ranges rest Ambiguous.is_same_width ;;
       Ok (skip_ranges merged ["N"])) /\
    wide_table ranges =
      (merged <- merge_ranges rest Wide.is_same_width ;;
       Ok (skip_ranges merged ["N"; "A"])) /\
    (forall r, gen_ambigous (r :: rest) = gen_ambigous ranges /\
               gen_wide (r :: rest) = gen_wide ranges) /\
    (forall g, gen_c ranges = Ok g -> threshold g = e).
Proof.
  intros Hg. destruct (get_ranges_runs _ _ _ Hg) as (es & He & ->).
  destruct (runs_head es (mkRange "N" 0 0)) as (rest & ->). simpl.
  eexists _, rest. split; [reflexivity |].
  repeat split.
  intros g Hc. unfold gen_c in Hc.
  destruct (gen_ambigous _); [| discriminate].
  destruct (gen_wide _); [| discriminate].
  simpl in Hc. now injection Hc as <-.
Qed.

Lemma get_ranges_placeholder_witness :
  exists e rest,
    [mkRange "N" 0 65; mkRange "A" 161 161; mkRange "W" 12288 12288]
    = mkRange "N" 0 e :: rest /\
    (forall g, gen_c [mkRange "N" 0 65; mkRange "A" 161 161;
                      mkRange "W" 12288 12288] = Ok g -> threshold g = e).
Proof.
  destruct (get_ranges_placeholder
              [mkChar (Some "Na") (Some 65) None;
               mkChar (Some "A") (Some 161) None;
               mkChar (Some "W") (Some 12288) None] true _ eq_refl)
    as (e & rest & H1 & _ & _ & _ & H2).
  now exists e, rest.
Defined.

(** ** Abort on a RangeSet of one Range *)

Lemma runs_single es : forall range,
  Forall (fun e => fst e = width range) es ->
  runs range es =
  [mkRange (width range) (start range) (run_end (width range) (end_ range) es)].
Proof.
  induction es as [| [w p] es IH]; intros range Hes; simpl.
  - now destruct range.
  - inversion Hes as [| ? ? Hw Hes']; subst. simpl in Hw. subst w.
    rewrite String.eqb_refl. simpl. now rewrite IH.
Qed.

Lemma entries_total b chars :
  Forall (fun c => exists w, normalize_ea (ea c) = Ok w) chars ->
  exists es, entries b chars = Ok es.
Proof.
  induction 1 as [| c chars [w Hw] _ [es IH]]; simpl.
  - now exists [].
  - rewrite Hw, IH. simpl. eexists. reflexivity.
Qed.

Lemma gen_c_single r : gen_c [r] = Raise IndexError.
Proof. reflexivity. Qed.

(** C10: [merge_ranges] raises IndexError on the empty list, so both
    emitters and [gen_c] raise it on a RangeSet of exactly one Range;
    and a stream that passes the assertion and whose code-point-bearing
    entries, if any, are all of effective class N yields such a RangeSet,
    on which the whole run aborts. *)
Theorem narrow_only_stream_aborts chars b :
  Forall (fun c => exists w, normalize_ea (ea c) = Ok w) chars ->
  (forall c p, In c chars -> cp c = Some p ->
     effective_class b c = Ok "N") ->
  (forall same, merge_ranges [] same = Raise IndexError) /\
  (forall r, gen_ambigous [r] = Raise IndexError /\
             gen_wide [r] = Raise IndexError /\
             gen_c [r] = Raise IndexError) /\
  (exists e, get_ranges chars b = Ok [mkRange "N" 0 e]) /\
  (ranges <- get_ranges chars b ;; gen_c ranges) = Raise IndexError.
Proof.
  intros Hn Hc.
  assert (Hg : exists e, get_ranges chars b = Ok [mkRange "N" 0 e]).
  { destruct (entries_total b _ Hn) as [es He].
    unfold get_ranges. rewrite get_ranges_loop_runs, He. simpl.
    rewrite runs_single; [eexists; reflexivity |].
    apply Forall_forall. intros [w p] Hin. simpl.
    destruct (entries_In_inv _ _ _ _ _ He Hin) as (c & Hi & Hcp & Hw).
    rewrite (Hc c p Hi Hcp) in Hw. now injection Hw. }
  split; [reflexivity |]. split; [now repeat split |].
  split; [assumption |].
  destruct Hg as [e ->]. reflexivity.
Qed.

Lemma narrow_only_stream_aborts_witness :
  main [mkChar (Some "Na") None None;
        mkChar (Some "Na") (Some 65) None;
        mkChar (Some "H") (Some 66) (Some "N")] = Raise IndexError /\
  main [] = Raise IndexError.
Proof.
  split.
  - refine (proj2 (proj2 (proj2 (narrow_only_stream_aborts
              [mkChar (Some "Na") None None;
               mkChar (Some "Na") (Some 65) None;
               mkChar (Some "H") (Some 66) (Some "N")] true _ _)))).
    + repeat constructor; eexists; reflexivity.
    + intros c p Hin Hcp. simpl in Hin.
      repeat (destruct Hin as [<- | Hin]; [try discriminate; reflexivity |]).
      contradiction.
  - refine (proj2 (proj2 (proj2 (narrow_only_stream_aborts [] true _ _)))).
    + constructor.
    + intros c p [].
Defined.

(** ** What the tables cover *)

Lemma before_nondecreasing l :
  StronglySorted before l -> Forall well_formed l ->
  StronglySorted nondecreasing l.
Proof.
  induction 1 as [| a l Hs IH Hall]; intros Hwf; [constructor |].
  inversion Hwf as [| ? ? Ha Hl]; subst.
  constructor; [now apply IH |].
  rewrite Forall_forall in *. intros x Hx.
  specialize (Hall x Hx). specialize (Hl x Hx).
  unfold before, well_formed, nondecreasing in *. lia.
Qed.

(** A range of the input that the policy keeps is covered by a range of
    the policy's table. *)
Lemma table_covers same skipped rest r p :
  (forall a b a' b', width a = width a' -> width b = width b' ->
                     same a b = same a' b') ->
  StronglySorted before rest -> Forall well_formed rest ->
  In r rest -> contains r p = true ->
  (forall m, width m = width r \/ same r m = true ->
             in_tuple (Some (width m)) skipped = false) ->
  exists merged,
    merge_ranges rest same = Ok merged /\
    existsb (fun m => contains m p) (skip_ranges merged skipped) = true.
Proof.
  intros Hbw Hs Hwf Hin Hc Hkeep.
  destruct rest as [| r0 rest']; [contradiction |].
  eexists. split; [reflexivity |].
  rewrite merge_loop_fold. cbn [app].
  pose proof (before_nondecreasing _ Hs Hwf) as Hn.
  assert (Hn' : StronglySorted nondecreasing (r0 :: r0 :: rest')).
  { constructor; [assumption |]. constructor.
    - unfold nondecreasing. lia.
    - now inversion Hn. }
  destruct (fold_from_cover same Hbw (r0 :: rest') r0 r Hn' (or_intror Hin))
    as (m & Hm & H1 & H2 & H3).
  apply existsb_exists. exists m. split.
  - apply filter_In. split; [assumption |]. now rewrite (Hkeep m H3).
  - apply contains_bounds in Hc. apply contains_bounds. lia.
Qed.

(** Every range of a policy's table starts where a range of the input
    starts. *)
Lemma table_origin same skipped rest merged m :
  merge_ranges rest same = Ok merged ->
  In m (skip_ranges merged skipped) ->
  exists r, In r rest /\ start m = start r /\ width m = width r.
Proof.
  intros Hm Hin. apply filter_In in Hin. destruct Hin as [Hin _].
  destruct (merge_ranges_fold _ _ _ Hm) as (r0 & rest' & -> & ->).
  destruct (fold_from_origin _ _ _ _ Hin) as (r & Hr & Hw & Hs).
  exists r. repeat split; try assumption.
  destruct Hr as [<- | Hr]; [now left | assumption].
Qed.

Lemma runs_restart w p es :
  runs (mkRange w p p) ((w, p) :: es) = runs (mkRange w p p) es.
Proof. simpl. now rewrite String.eqb_refl. Qed.

(** Past the placeholder the ranges are sorted and cover every entry
    that is not Narrow, whatever the entry of code point 0 is. *)
Lemma runs_tail es :
  StronglySorted N.lt (map snd es) ->
  StronglySorted before (tl (runs (mkRange "N" 0 0) es)) /\
  Forall well_formed (tl (runs (mkRange "N" 0 0) es)) /\
  forall w p, In (w, p) es -> w <> "N" ->
    exists r, In r (tl (runs (mkRange "N" 0 0) es)) /\
              contains r p = true /\ width r = w.
Proof.
  intros Hs. destruct es as [| [w0 p0] es].
  - simpl. repeat split; try constructor. intros w p [].
  - destruct (String.eqb_spec w0 "N") as [-> | Hne].
    + assert (Hab : above (mkRange "N" 0 0) (("N", p0) :: es)).
      { split; [assumption |]. simpl in Hs.
        inversion Hs as [| ? ? _ Hall]; subst.
        constructor.
        - simpl. destruct (N.eq_dec p0 0) as [-> | H0]; [now right | left; lia].
        - rewrite Forall_map in Hall. eapply Forall_impl; [| exact Hall].
          intros e He. left. simpl in *. lia. }
      assert (Hwf : well_formed (mkRange "N" 0 0))
        by (unfold well_formed; simpl; lia).
      destruct (runs_sorted _ _ Hwf Hab) as (H1 & H2 & _).
      pose proof (fun w p => runs_cover _ _ w p Hwf Hab) as Hcov.
      destruct (runs_head (("N", p0) :: es) (mkRange "N" 0 0)) as [rest Hr].
      rewrite Hr in *. cbn [tl].
      inversion H1; inversion H2; subst.
      repeat split; try assumption.
      intros w p Hin Hw.
      destruct (Hcov w p Hin) as (r & [<- | Hr'] & Hc & Hwr).
      * simpl in Hwr. congruence.
      * now exists r.
    + assert (Hab : above (mkRange w0 p0 p0) ((w0, p0) :: es)).
      { split; [assumption |]. simpl in Hs.
        inversion Hs as [| ? ? _ Hall]; subst.
        constructor.
        - right. now split.
        - rewrite Forall_map in Hall. eapply Forall_impl; [| exact Hall].
          intros e He. now left. }
      assert (Hwf : well_formed (mkRange w0 p0 p0))
        by (unfold well_formed; simpl; lia).
      assert (Ht : tl (runs (mkRange "N" 0 0) ((w0, p0) :: es))
                   = runs (mkRange w0 p0 p0) ((w0, p0) :: es)).
      { rewrite runs_restart. simpl.
        apply String.eqb_neq in Hne. now rewrite Hne. }
      rewrite Ht.
      destruct (runs_sorted _ _ Hwf Hab) as (H1 & H2 & _).
      repeat split; try assumption.
      intros w p Hin _. now apply runs_cover.
Qed.

(** C2, as amended: over a stream in strictly increasing code-point
    order, extraction with emoji_as_wide = true gives every entry that
    carries ExtPict = 'Y' and whose raw property normalises to N the
    effective class W, and its code point matches a case of the wide
    table and also a case of the ambiguous table. *)
Theorem emoji_entry_in_both_tables chars ranges c p :
  increasing (code_points chars) ->
  get_ranges chars true = Ok ranges ->
  In c chars -> cp c = Some p ->
  ExtPict c = Some "Y" -> normalize_ea (ea c) = Ok "N" ->
  effective_class true c = Ok "W" /\
  exists wide amb,
    gen_wide ranges = Ok wide /\ gen_ambigous ranges = Ok amb /\
    switch_value wide p = true /\ switch_value amb p = true.
Proof.
  intros Hinc Hg Hc Hcp Hy Hn.
  assert (Heff : effective_class true c = Ok "W").
  { unfold effective_class. rewrite Hn. simpl.
    unfold emoji_override. now rewrite Hy. }
  split; [assumption |].
  destruct (get_ranges_runs _ _ _ Hg) as (es & He & ->).
  destruct (entries_In _ _ _ _ _ He Hc Hcp) as (w & Hw & Hin).
  rewrite Heff in Hw. injection Hw as <-.
  destruct (runs_tail es) as (Hs & Hwf & Hcov).
  { rewrite (entries_code_points _ _ _ He). now apply increasing_strongly. }
  destruct (Hcov "W" p Hin) as (r & Hr & Hcon & Hwr); [discriminate |].
  destruct (table_covers Wide.is_same_width Wide.width_skipped _ r p
              wide_same_by_width Hs Hwf Hr Hcon) as (mw & Hmw & Hew).
  { intros m [Hm | Hm].
    - rewrite Hm, Hwr. reflexivity.
    - unfold Wide.is_same_width in Hm. rewrite Hwr in Hm. simpl in Hm.
      apply String.eqb_eq in Hm. now rewrite Hm. }
  destruct (table_covers Ambiguous.is_same_width Ambiguous.width_skipped
              _ r p ambiguous_same_by_width Hs Hwf Hr Hcon)
    as (ma & Hma & Hea).
  { intros m [Hm | Hm].
    - rewrite Hm, Hwr. reflexivity.
    - unfold Ambiguous.is_same_width in Hm. rewrite Hwr in Hm. simpl in Hm.
      simpl. destruct (String.eqb_spec (width m) "N") as [E | _];
        [| reflexivity].
      rewrite E in Hm. discriminate. }
  exists (labelled (skip_ranges mw Wide.width_skipped)),
         (labelled (skip_ranges ma Ambiguous.width_skipped)).
  unfold gen_wide, gen_ambigous, wide_table, ambiguous_table.
  rewrite Hmw, Hma. simpl.
  change ["N"; "A"] with Wide.width_skipped.
  change ["N"] with Ambiguous.width_skipped.
  rewrite !emit_cases_skip_ranges, !switch_value_labelled.
  repeat split; assumption.
Qed.

Lemma emoji_entry_in_both_tables_witness :
  effective_class true (mkChar (Some "N") (Some 9786) (Some "Y")) = Ok "W" /\
  exists wide amb,
    gen_wide [mkRange "N" 0 65; mkRange "A" 161 161;
              mkRange "W" 9786 12288] = Ok wide /\
    gen_ambigous [mkRange "N" 0 65; mkRange "A" 161 161;
                  mkRange "W" 9786 12288] = Ok amb /\
    switch_value wide 9786 = true /\ switch_value amb 9786 = true.
Proof.
  apply (emoji_entry_in_both_tables
           [mkChar (Some "Na") (Some 65) None;
            mkChar (Some "A") (Some 161) None;
            mkChar (Some "N") (Some 9786) (Some "Y");
            mkChar (Some "W") (Some 12288) None]).
  - repeat constructor.
  - reflexivity.
  - right. right. now left.
  - reflexivity.
  - reflexivity.
  - reflexivity.
Defined.

(** C2 fails as stated: with emoji_as_wide = true the Narrow, extended
    pictographic U+1F600 gets class W and matches a case of the wide
    table, but it matches a case of the ambiguous table as well. *)
Lemma emoji_entry_in_ambiguous_table :
  let c := mkChar (Some "Na") (Some 128512) (Some "Y") in
  exists ranges wide amb,
    get_ranges [c] true = Ok ranges /\
    effective_class true c = Ok "W" /\
    gen_wide ranges = Ok wide /\ gen_ambigous ranges = Ok amb /\
    switch_value wide 128512 = true /\
    ~ (switch_value amb 128512 = false).
Proof.
  cbv zeta. do 3 eexists.
  repeat split; try reflexivity. discriminate.
Qed.

(** ** The fast-path threshold *)

Lemma table_beyond same skipped rest merged t :
  merge_ranges rest same = Ok merged ->
  Forall (fun r => t < start r) rest ->
  forall p, p <= t ->
    existsb (fun m => contains m p) (skip_ranges merged skipped) = false.
Proof.
  intros Hm Hall p Hp.
  apply not_true_is_false. intros H.
  apply existsb_exists in H. destruct H as (m & Hin & Hc).
  destruct (table_origin _ _ _ _ _ Hm Hin) as (r & Hr & Hs & _).
  rewrite Forall_forall in Hall. specialize (Hall r Hr).
  apply contains_bounds in Hc. lia.
Qed.

(** C5, as amended: over a stream in strictly increasing code-point
    order whose entry for code point 0, if it has one, is of effective
    class N, the emitted threshold is the end of the first returned
    Range, which is the end of the first maximal Narrow run starting at
    code point 0, and no code point up to the threshold matches a case
    of either table. *)
Theorem threshold_below_tables chars b ranges g :
  increasing (code_points chars) ->
  zero_is_narrow chars b ->
  get_ranges chars b = Ok ranges ->
  gen_c ranges = Ok g ->
  (exists r0 rest, ranges = r0 :: rest /\ threshold g = end_ r0) /\
  (exists es, entries b chars = Ok es /\ threshold g = narrow_run_end es) /\
  forall p, p <= threshold g ->
    switch_value (ambiguous_cases g) p = false /\
    switch_value (wide_cases g) p = false.
Proof.
  intros Hinc Hz Hg Hc.
  destruct (get_ranges_sorted _ _ _ Hinc Hz Hg) as [Hs _].
  destruct (get_ranges_runs _ _ _ Hg) as (es & He & ->).
  destruct (runs_head es (mkRange "N" 0 0)) as (rest & Hr).
  rewrite Hr in *. simpl in Hr, Hs, Hc.
  inversion Hs as [| ? ? _ Hall]; subst. unfold before in Hall. simpl in Hall.
  destruct (gen_ambigous _) as [amb |] eqn:Ha; [| discriminate].
  destruct (gen_wide _) as [wide |] eqn:Hw; [| discriminate].
  simpl in Hc. injection Hc as <-. simpl.
  split; [eexists _, _; split; reflexivity |].
  split; [exists es; split; [assumption | reflexivity] |].
  intros p Hp.
  destruct (gen_ambigous_labelled _ _ Ha) as (ta & Hta & ->).
  destruct (gen_wide_labelled _ _ Hw) as (tw & Htw & ->).
  rewrite !switch_value_labelled.
  unfold ambiguous_table in Hta. unfold wide_table in Htw. cbn [tl] in *.
  destruct (merge_ranges rest Ambiguous.is_same_width) as [ma |] eqn:Hma;
    [| discriminate].
  destruct (merge_ranges rest Wide.is_same_width) as [mw |] eqn:Hmw;
    [| discriminate].
  simpl in Hta, Htw. injection Hta as <-. injection Htw as <-.
  split; eapply table_beyond; eassumption.
Qed.

Lemma threshold_below_tables_witness :
  exists g,
    main [mkChar (Some "Na") (Some 32) None;
          mkChar (Some "Na") (Some 65) None;
          mkChar (Some "A") (Some 161) None;
          mkChar (Some "W") (Some 12288) None] = Ok g /\
    threshold g = 65 /\
    forall p, p <= 65 ->
      switch_value (ambiguous_cases g) p = false /\
      switch_value (wide_cases g) p = false.
Proof.
  eexists. split; [reflexivity |]. split; [reflexivity |].
  refine (proj2 (proj2 (threshold_below_tables
            [mkChar (Some "Na") (Some 32) None;
             mkChar (Some "Na") (Some 65) None;
             mkChar (Some "A") (Some 161) None;
             mkChar (Some "W") (Some 12288) None] true _ _ _ _ eq_refl
            eq_refl))).
  - repeat constructor.
  - intros c Hin H0. simpl in Hin.
    repeat (destruct Hin as [<- | Hin]; [discriminate |]). contradiction.
Defined.

(** C5 fails as stated: when the entry of code point 0 is Wide the
    threshold is 0, and code point 0, which is not above it, matches a
    case of both tables. *)
Lemma threshold_zero_in_tables :
  let chars := [mkChar (Some "W") (Some 0) None;
                mkChar (Some "Na") (Some 1) None] in
  increasing (code_points chars) /\
  exists g, main chars = Ok g /\ threshold g = 0 /\
            switch_value (wide_cases g) 0 = true /\
            switch_value (ambiguous_cases g) 0 = true.
Proof.
  cbv zeta. split; [repeat constructor |].
  eexists. repeat split; reflexivity.
Qed.

(** ** The assertion on the ea attribute *)

(** C6, at its failing input: a record whose ea attribute is the empty
    string, a value outside {Na, N, H, A, W, F}, passes the assertion,
    since [ea in ('F')] is a substring test; the run goes on and records
    the code point as Wide. *)
Theorem empty_ea_passes_assertion :
  normalize_ea (Some "") = Ok "W" /\
  get_ranges [mkChar (Some "") (Some 65) None] true
  = Ok [mkRange "N" 0 0; mkRange "W" 65 65] /\
  main [mkChar (Some "") (Some 65) None]
  = Ok (mkGenerated 0 [CaseSingle 65 ""] [CaseSingle 65 ""]).
Proof. repeat split; reflexivity. Qed.

(** A record without the ea attribute stops the run with a TypeError,
    raised by the substring test before the assertion is reached. *)
Remark missing_ea_raises_type_error :
  normalize_ea None = Raise TypeError /\
  get_ranges [mkChar None (Some 65) None] true = Raise TypeError.
Proof. split; reflexivity. Qed.

(** On every other raw string the assertion does what the design says:
    it passes on the six listed values and raises AssertionError on the
    rest, whether or not the record bears a code point. *)
Lemma normalize_ea_raises (s : string) :
  s <> "" ->
  (In s ["Na"; "N"; "H"; "A"; "W"; "F"] ->
   exists w, normalize_ea (Some s) = Ok w) /\
  (~ In s ["Na"; "N"; "H"; "A"; "W"; "F"] ->
   normalize_ea (Some s) = Raise AssertionError).
Proof.
  intros Hne. split.
  - intros H. apply normalize_ea_accepts. simpl in *. intuition.
  - intros H.
    destruct (normalize_ea (Some s)) as [w | e] eqn:E.
    + exfalso. assert (Ha : exists w, normalize_ea (Some s) = Ok w)
        by now exists w.
      apply normalize_ea_accepts in Ha. simpl in *. intuition.
    + unfold normalize_ea in E.
      destruct (in_tuple (Some s) ["Na"; "H"]); [discriminate |].
      destruct (in_tuple (Some (if str_in s "F" then "W" else s))
                         ["N"; "A"; "W"]); [discriminate |].
      now injection E as <-.
Qed.

Lemma get_ranges_raises b c chars e :
  normalize_ea (ea c) = Raise e -> get_ranges (c :: chars) b = Raise e.
Proof. intros H. unfold get_ranges. simpl. now rewrite H. Qed.

(** * Further properties of the extraction *)

Lemma runs_adjacent es : forall range,
  adjacent_widths_differ (runs range es).
Proof.
  unfold adjacent_widths_differ.
  induction es as [| [w p] es IH]; intros range i r1 r2 H1 H2; simpl in *.
  - destruct i; discriminate.
  - destruct (String.eqb_spec w (width range)) as [E | E]; simpl in *.
    + eapply IH; eassumption.
    + destruct i as [| i]; simpl in *.
      * injection H1 as <-.
        destruct (runs_head es (mkRange w p p)) as [rest Hr].
        rewrite Hr in H2. injection H2 as <-. simpl. congruence.
      * eapply IH; eassumption.
Qed.

(** X1: two neighbouring Ranges of the list [get_ranges] returns never
    record the same width, so each Range is a maximal run. *)
Theorem get_ranges_maximal_runs chars b ranges :
  get_ranges chars b = Ok ranges -> adjacent_widths_differ ranges.
Proof.
  intros Hg. destruct (get_ranges_runs _ _ _ Hg) as (es & _ & ->).
  apply runs_adjacent.
Qed.

Lemma get_ranges_maximal_runs_witness :
  adjacent_widths_differ
    [mkRange "N" 0 65; mkRange "A" 161 161; mkRange "W" 9786 12288].
Proof.
  apply (get_ranges_maximal_runs
           [mkChar (Some "Na") (Some 65) None;
            mkChar (Some "A") (Some 161) None;
            mkChar (Some "N") (Some 9786) (Some "Y");
            mkChar (Some "W") (Some 12288) None] true).
  reflexivity.
Defined.

Lemma runs_length es : forall range,
  (1 <= List.length (runs range es) <= S (List.length es))%nat.
Proof.
  induction es as [| [w p] es IH]; intros range; simpl.
  - lia.
  - destruct (negb (String.eqb w (width range))); simpl.
    + specialize (IH (mkRange w p p)). lia.
    + specialize (IH (replace_end range p)). lia.
Qed.

(** X2: [get_ranges] returns at least one Range and at most one more
    than the stream has code-point-bearing records. *)
Theorem get_ranges_length chars b ranges :
  get_ranges chars b = Ok ranges ->
  (1 <= List.length ranges <= S (List.length (code_points chars)))%nat.
Proof.
  intros Hg. destruct (get_ranges_runs _ _ _ Hg) as (es & He & ->).
  rewrite <- (entries_code_points _ _ _ He), length_map.
  apply runs_length.
Qed.

Lemma get_ranges_length_witness :
  (1 <= List.length [mkRange "N" 0 65; mkRange "A" 161 161]
   <= S (List.length [65; 161]))%nat.
Proof.
  apply (get_ranges_length
           [mkChar (Some "Na") (Some 65) None;
            mkChar (Some "H") None None;
            mkChar (Some "A") (Some 161) None] false).
  reflexivity.
Defined.






Lemma entries_filter_has_cp b chars : forall es,
  entries b chars = Ok es -> entries b (filter has_cp chars) = Ok es.
Proof.
  induction chars as [| c chars IH]; intros es He; simpl in *;
    [assumption |].
  destruct (normalize_ea (ea c)) as [w |] eqn:En; [| discriminate].
  destruct (entries b chars) as [rest |]; [| discriminate].
  simpl in He. injection He as <-.
  assert (Hh : has_cp c = match cp c with Some _ => true | None => false end)
    by reflexivity.
  rewrite Hh. destruct (cp c) as [p |] eqn:Ecp.
  - simpl. now rewrite En, (IH rest eq_refl), Ecp.
  - now apply IH.
Qed.

(** X5: when [get_ranges] returns, the records without a code point
    had no effect: the stream with those records removed returns the
    same list. *)
Theorem get_ranges_skips_records_without_cp chars b ranges :
  get_ranges chars b = Ok ranges ->
  get_ranges (filter has_cp chars) b = Ok ranges.
Proof.
  intros Hg. destruct (get_ranges_runs _ _ _ Hg) as (es & He & ->).
  unfold get_ranges.
  now rewrite get_ranges_loop_runs, (entries_filter_has_cp _ _ _ He).
Qed.

Lemma get_ranges_skips_records_without_cp_witness :
  get_ranges (filter has_cp [mkChar (Some "H") None None;
                             mkChar (Some "A") (Some 161) None;
                             mkChar (Some "W") None (Some "Y")]) true
  = Ok [mkRange "N" 0 0; mkRange "A" 161 161].
Proof.
  apply get_ranges_skips_records_without_cp. reflexivity.
Defined.

(** A record without a code point still stops the run when its ea value
    fails the assertion, which line 29 makes before line 31 skips. *)
Remark record_without_cp_can_raise :
  get_ranges [mkChar (Some "Na") (Some 65) None;
              mkChar (Some "X") None None] true = Raise AssertionError.
Proof. reflexivity. Qed.

Lemma emoji_override_unmarked c w :
  ExtPict c <> Some "Y" -> emoji_override true c w = emoji_override false c w.
Proof.
  unfold emoji_override. intros H.
  destruct (ExtPict c) as [m |]; [| reflexivity].
  destruct (String.eqb_spec m "Y") as [-> | _]; [now elim H | reflexivity].
Qed.

(** X6: on a stream in which no record carries ExtPict = 'Y', the
    option emoji_as_wide makes no difference to [get_ranges]. *)
Theorem get_ranges_flag_irrelevant chars :
  Forall (fun c => ExtPict c <> Some "Y") chars ->
  get_ranges chars true = get_ranges chars false.
Proof.
  unfold get_ranges. generalize (@nil Range) (mkRange "N" 0 0).
  induction chars as [| c chars IH]; intros ranges range Hall;
    [reflexivity |].
  inversion Hall as [| ? ? Hc Hall']; subst. cbn [get_ranges_loop].
  destruct (normalize_ea (ea c)) as [w |]; cbn [bind]; [| reflexivity].
  destruct (cp c); [| now apply IH].
  cbv zeta. rewrite (emoji_override_unmarked c w Hc).
  destruct (negb _); now apply IH.
Qed.

Lemma get_ranges_flag_irrelevant_witness :
  get_ranges [mkChar (Some "Na") (Some 65) None;
              mkChar (Some "W") (Some 12288) (Some "N")] true
  = get_ranges [mkChar (Some "Na") (Some 65) None;
                mkChar (Some "W") (Some 12288) (Some "N")] false.
Proof.
  apply get_ranges_flag_irrelevant.
  repeat constructor; discriminate.
Defined.

(** * Further properties of the merge *)

Section Fold.

Variable same : Range -> Range -> bool.

(** A list no two neighbours of which the fold would merge is left as
    it is. *)
Lemma fold_from_fixed l : forall a,
  (forall (i : nat) r1 r2,
     nth_error (a :: l) i = Some r1 -> nth_error (a :: l) (S i) = Some r2 ->
     same r2 r1 = false) ->
  fold_from same a l = a :: l.
Proof.
  induction l as [| x l IH]; intros a H; [reflexivity |].
  simpl. rewrite (H 0%nat a x eq_refl eq_refl). f_equal.
  apply IH. intros i r1 r2 H1 H2. now apply (H (S i)).
Qed.

(** The fold keeps a sorted, well-formed list sorted and well-formed. *)
Lemma fold_from_sorted rs : forall acc,
  StronglySorted before (acc :: rs) -> Forall well_formed (acc :: rs) ->
  StronglySorted before (fold_from same acc rs) /\
  Forall well_formed (fold_from same acc rs).
Proof.
  induction rs as [| x rs IH]; intros acc Hs Hwf.
  - simpl. split; [assumption | assumption].
  - inversion Hs as [| ? ? Hs' Hall]; subst.
    inversion Hwf as [| ? ? Ha Hwf']; subst.
    inversion Hall as [| ? ? Hax Hall']; subst.
    inversion Hs' as [| ? ? Hs'' Hallx]; subst.
    inversion Hwf' as [| ? ? Hx Hwf'']; subst.
    unfold before, well_formed in *.
    simpl. destruct (same x acc).
    + apply IH.
      * constructor; [assumption |].
        eapply Forall_impl; [| exact Hallx]. intros y Hy. exact Hy.
      * constructor; [| assumption]. unfold well_formed. simpl. lia.
    + destruct (IH x Hs' Hwf') as [H1 H2].
      split; [| now constructor].
      constructor; [assumption |].
      apply Forall_forall. intros m Hm.
      destruct (fold_from_origin _ _ _ _ Hm) as (r & Hr & _ & Hst).
      rewrite Forall_forall in Hall. specialize (Hall r Hr).
      unfold before in *. lia.
Qed.

Hypothesis same_by_width : forall a b a' b',
  width a = width a' -> width b = width b' -> same a b = same a' b'.

Lemma fold_from_idempotent rs acc :
  exists h t,
    fold_from same acc rs = h :: t /\ width h = width acc /\
    fold_from same h t = h :: t.
Proof.
  destruct (fold_from_head same rs acc) as (e & rest & Hh).
  eexists _, rest. split; [exact Hh |]. split; [reflexivity |].
  apply fold_from_fixed. rewrite <- Hh.
  intros i r1 r2. now apply fold_from_adjacent.
Qed.

End Fold.

Lemma sorted_contains_eq l r m p :
  StronglySorted before l -> Forall well_formed l ->
  In r l -> In m l -> contains r p = true -> contains m p = true -> r = m.
Proof.
  intros Hs Hwf Hr Hm Hcr Hcm.
  destruct (In_nth_error _ _ Hr) as [i Hi].
  destruct (In_nth_error _ _ Hm) as [j Hj].
  pose proof (sorted_disjoint_increasing _ Hs Hwf) as Hd.
  assert (j = i) by (eapply disjoint_contains_unique; eassumption).
  subst j. congruence.
Qed.

Lemma StronglySorted_filter_keep {A : Type} (R : A -> A -> Prop)
  (f : A -> bool) (l : list A) :
  StronglySorted R l -> StronglySorted R (filter f l).
Proof.
  induction 1 as [| a l Hs IH Hall]; simpl; [constructor |].
  destruct (f a); [| assumption].
  constructor; [assumption |].
  rewrite Forall_forall in *. intros x Hx. apply Hall.
  now apply filter_In in Hx.
Qed.

Lemma Forall_filter_keep {A : Type} (P : A -> Prop) (f : A -> bool)
  (l : list A) : Forall P l -> Forall P (filter f l).
Proof.
  rewrite !Forall_forall. intros H x Hx. apply H.
  now apply filter_In in Hx.
Qed.

(** What the two policies share: a predicate that reads only widths and
    is reflexive on the three classes. *)
Section Policy.

Variable same : Range -> Range -> bool.
Variable skipped : list string.

Hypothesis same_by_width : forall a b a' b',
  width a = width a' -> width b = width b' -> same a b = same a' b'.
Hypothesis same_refl : forall r, width_class (width r) -> same r r = true.

Lemma policy_fold rest merged :
  Forall (fun r => width_class (width r)) rest ->
  merge_ranges rest same = Ok merged ->
  exists r0 rest', rest = r0 :: rest' /\ merged = fold_from same r0 rest'.
Proof.
  intros Hc Hm. destruct rest as [| r0 rest']; [discriminate |].
  inversion Hc as [| ? ? Hc0 _]; subst.
  rewrite (merge_ranges_reflexive same r0 rest' (same_refl _ Hc0)) in Hm.
  injection Hm as <-. now exists r0, rest'.
Qed.

Lemma policy_sorted rest merged :
  StronglySorted before rest -> Forall well_formed rest ->
  Forall (fun r => width_class (width r)) rest ->
  merge_ranges rest same = Ok merged ->
  StronglySorted before merged /\ Forall well_formed merged.
Proof.
  intros Hs Hwf Hc Hm.
  destruct (policy_fold _ _ Hc Hm) as (r0 & rest' & -> & ->).
  now apply fold_from_sorted.
Qed.

(** A merged range and an input range that share a code point are of one
    width, or equivalent. *)
Lemma policy_sound rest merged r m p :
  StronglySorted before rest -> Forall well_formed rest ->
  Forall (fun r => width_class (width r)) rest ->
  merge_ranges rest same = Ok merged ->
  In r rest -> contains r p = true ->
  In m merged -> contains m p = true ->
  width m = width r \/ same r m = true.
Proof.
  intros Hs Hwf Hc Hm Hr Hcr Hin Hcm.
  destruct (policy_sorted _ _ Hs Hwf Hc Hm) as [Hs' Hwf'].
  destruct (policy_fold _ _ Hc Hm) as (r0 & rest' & -> & ->).
  destruct (fold_from_cover same same_by_width rest' r0 r
              (before_nondecreasing _ Hs Hwf) Hr)
    as (m' & Hm' & H1 & H2 & H3).
  assert (Hcm' : contains m' p = true).
  { apply contains_bounds in Hcr. apply contains_bounds. lia. }
  now rewrite (sorted_contains_eq _ m m' p Hs' Hwf' Hin Hm' Hcm Hcm').
Qed.

Lemma policy_idempotent first rest merged :
  width_class (width first) ->
  merge_ranges (first :: rest) same = Ok merged ->
  merge_ranges merged same = Ok merged.
Proof.
  intros Hc Hm.
  rewrite (merge_ranges_reflexive same first rest (same_refl _ Hc)) in Hm.
  injection Hm as <-.
  destruct (fold_from_idempotent same same_by_width rest first)
    as (h & t & -> & Hw & Hfix).
  rewrite merge_ranges_reflexive, Hfix; [reflexivity |].
  apply same_refl. now rewrite Hw.
Qed.

End Policy.

(** X7: under either policy, merging a merged list again changes
    nothing, when the first width is one of the three classes. *)
Theorem merge_ranges_idempotent first rest :
  width_class (width first) ->
  (forall merged,
     merge_ranges (first :: rest) Ambiguous.is_same_width = Ok merged ->
     merge_ranges merged Ambiguous.is_same_width = Ok merged) /\
  (forall merged,
     merge_ranges (first :: rest) Wide.is_same_width = Ok merged ->
     merge_ranges merged Wide.is_same_width = Ok merged).
Proof.
  intros Hc. split; intros merged Hm.
  - eapply policy_idempotent; try eassumption.
    + apply ambiguous_same_by_width.
    + apply ambiguous_same_refl.
  - eapply policy_idempotent; try eassumption.
    + apply wide_same_by_width.
    + apply wide_same_refl.
Qed.

Lemma merge_ranges_idempotent_witness :
  merge_ranges [mkRange "A" 161 170; mkRange "N" 171 180]
               Ambiguous.is_same_width
  = Ok [mkRange "A" 161 170; mkRange "N" 171 180].
Proof.
  refine (proj1 (merge_ranges_idempotent (mkRange "A" 161 161)
            [mkRange "W" 162 170; mkRange "N" 171 180] _) _ eq_refl).
  right. now left.
Defined.

(** X8: over a stream in strictly increasing code-point order both
    policy tables are non-overlapping and strictly increasing by start,
    so no two case labels of a switch can match the same value. *)
Theorem tables_disjoint_increasing chars b ranges :
  increasing (code_points chars) ->
  get_ranges chars b = Ok ranges ->
  (forall table, ambiguous_table ranges = Ok table ->
     disjoint_increasing table) /\
  (forall table, wide_table ranges = Ok table ->
     disjoint_increasing table).
Proof.
  intros Hinc Hg.
  pose proof (Forall_tl _ _ (get_ranges_class _ _ _ Hg)) as Hc.
  destruct (get_ranges_runs _ _ _ Hg) as (es & He & ->).
  destruct (runs_tail es) as (Hs & Hwf & _).
  { rewrite (entries_code_points _ _ _ He). now apply increasing_strongly. }
  split; intros table Ht.
  - unfold ambiguous_table in Ht.
    destruct (merge_ranges _ Ambiguous.is_same_width) as [merged |] eqn:Hm;
      [| discriminate].
    simpl in Ht. injection Ht as <-.
    destruct (policy_sorted _ ambiguous_same_refl _ _ Hs Hwf Hc Hm).
    apply sorted_disjoint_increasing.
    + now apply StronglySorted_filter_keep.
    + now apply Forall_filter_keep.
  - unfold wide_table in Ht.
    destruct (merge_ranges _ Wide.is_same_width) as [merged |] eqn:Hm;
      [| discriminate].
    simpl in Ht. injection Ht as <-.
    destruct (policy_sorted _ wide_same_refl _ _ Hs Hwf Hc Hm).
    apply sorted_disjoint_increasing.
    + now apply StronglySorted_filter_keep.
    + now apply Forall_filter_keep.
Qed.

Lemma tables_disjoint_increasing_witness :
  disjoint_increasing [mkRange "A" 161 161; mkRange "W" 12288 12290] /\
  disjoint_increasing [mkRange "W" 12288 12290].
Proof.
  destruct (tables_disjoint_increasing
              [mkChar (Some "Na") (Some 65) None;
               mkChar (Some "A") (Some 161) None;
               mkChar (Some "N") (Some 200) None;
               mkChar (Some "W") (Some 12288) None;
               mkChar (Some "F") (Some 12290) None] true
              [mkRange "N" 0 65; mkRange "A" 161 161; mkRange "N" 200 200;
               mkRange "W" 12288 12290]) as [Ha Hw].
  - repeat constructor.
  - reflexivity.
  - split; [apply Ha | apply Hw]; reflexivity.
Defined.

(** * What the generated predicates answer *)

(** An entry's code point lies in a range of its own width past the
    placeholder, or the entry is Narrow and lies below all of them. *)
Lemma runs_tail_entry es w p :
  StronglySorted N.lt (map snd es) -> In (w, p) es ->
  (exists r, In r (tl (runs (mkRange "N" 0 0) es)) /\
             contains r p = true /\ width r = w) \/
  (w = "N" /\
   Forall (fun r => p < start r) (tl (runs (mkRange "N" 0 0) es))).
Proof.
  intros Hs Hin. destruct es as [| [w0 p0] es]; [contradiction |].
  destruct (String.eqb_spec w0 "N") as [-> | Hne].
  - assert (Hab : above (mkRange "N" 0 0) (("N", p0) :: es)).
    { split; [assumption |]. simpl in Hs.
      inversion Hs as [| ? ? _ Hall]; subst.
      constructor.
      - simpl. destruct (N.eq_dec p0 0) as [-> | H0]; [now right | left; lia].
      - rewrite Forall_map in Hall. eapply Forall_impl; [| exact Hall].
        intros e He. left. simpl in *. lia. }
    assert (Hwf : well_formed (mkRange "N" 0 0))
      by (unfold well_formed; simpl; lia).
    destruct (runs_sorted _ _ Hwf Hab) as (H1 & _ & _).
    destruct (runs_cover _ _ w p Hwf Hab Hin) as (r & Hr & Hc & Hwr).
    destruct (runs_head (("N", p0) :: es) (mkRange "N" 0 0)) as [rest Hh].
    rewrite Hh in *. cbn [tl].
    destruct Hr as [<- | Hr]; [right | left; now exists r].
    simpl in Hwr. split; [now symmetry |].
    inversion H1 as [| ? ? _ Hall]; subst.
    apply contains_bounds in Hc. simpl in Hc.
    eapply Forall_impl; [| exact Hall].
    intros r Hb. unfold before in Hb. simpl in Hb. lia.
  - left.
    assert (Hab : above (mkRange w0 p0 p0) ((w0, p0) :: es)).
    { split; [assumption |]. simpl in Hs.
      inversion Hs as [| ? ? _ Hall]; subst.
      constructor.
      - right. now split.
      - rewrite Forall_map in Hall. eapply Forall_impl; [| exact Hall].
        intros e He. now left. }
    assert (Hwf : well_formed (mkRange w0 p0 p0))
      by (unfold well_formed; simpl; lia).
    assert (Ht : tl (runs (mkRange "N" 0 0) ((w0, p0) :: es))
                 = runs (mkRange w0 p0 p0) ((w0, p0) :: es)).
    { rewrite runs_restart. simpl.
      apply String.eqb_neq in Hne. now rewrite Hne. }
    rewrite Ht. now apply runs_cover.
Qed.

Lemma table_misses same skipped rest merged p :
  merge_ranges rest same = Ok merged ->
  Forall (fun r => p < start r) rest ->
  forall m, In m (skip_ranges merged skipped) -> contains m p = false.
Proof.
  intros Hm Hall m Hin.
  destruct (table_origin _ _ _ _ _ Hm Hin) as (r & Hr & Hs & _).
  rewrite Forall_forall in Hall. specialize (Hall r Hr).
  apply not_true_is_false. intros Hc. apply contains_bounds in Hc. lia.
Qed.

Lemma existsb_false_forall {A : Type} (f : A -> bool) (l : list A) :
  (forall x, In x l -> f x = true -> False) -> existsb f l = false.
Proof.
  intros H. apply not_true_is_false. intros E.
  apply existsb_exists in E. destruct E as (x & Hx & Hf). eauto.
Qed.

(** The wide table contains an entry's code point exactly when the
    entry is Wide. *)
Lemma wide_table_classifies es w p table :
  StronglySorted N.lt (map snd es) ->
  Forall (fun e => width_class (fst e)) es ->
  In (w, p) es ->
  wide_table (runs (mkRange "N" 0 0) es) = Ok table ->
  existsb (fun m => contains m p) table = String.eqb w "W".
Proof.
  intros Hsort Hcl Hin Ht.
  destruct (runs_tail es Hsort) as (Hs & Hwf & Hcov).
  assert (Hc : Forall (fun r => width_class (width r))
                      (tl (runs (mkRange "N" 0 0) es)))
    by (apply Forall_tl, runs_class; [now left | assumption]).
  unfold wide_table in Ht.
  destruct (merge_ranges _ Wide.is_same_width) as [merged |] eqn:Hm;
    [| discriminate].
  simpl in Ht. injection Ht as <-.
  destruct (String.eqb_spec w "W") as [-> | Hne].
  - destruct (Hcov "W" p Hin) as (r & Hr & Hcon & Hwr); [discriminate |].
    destruct (table_covers Wide.is_same_width Wide.width_skipped _ r p
                wide_same_by_width Hs Hwf Hr Hcon) as (mw & Hmw & Hew).
    { intros m [E | E].
      - rewrite E, Hwr. reflexivity.
      - unfold Wide.is_same_width in E. rewrite Hwr in E. simpl in E.
        apply String.eqb_eq in E. now rewrite E. }
    rewrite Hm in Hmw. now injection Hmw as <-.
  - apply existsb_false_forall. intros m Hmt Hcm.
    pose proof Hmt as Hmt'. apply filter_In in Hmt'.
    destruct Hmt' as [Hmm Hkeep].
    assert (Hw : width m = "W").
    { pose proof (merge_ranges_class _ _ _ Hc Hm) as Hcm'.
      rewrite Forall_forall in Hcm'. specialize (Hcm' m Hmm).
      unfold width_class in Hcm'.
      destruct Hcm' as [E | [E | E]]; rewrite E in Hkeep;
        try discriminate. assumption. }
    destruct (runs_tail_entry es w p Hsort Hin)
      as [(r & Hr & Hcr & Hwr) | [_ Hall]].
    + destruct (policy_sound _ wide_same_by_width wide_same_refl
                  _ _ r m p Hs Hwf Hc Hm Hr Hcr Hmm Hcm) as [E | E].
      * congruence.
      * rewrite Forall_forall in Hc. specialize (Hc r Hr).
        unfold Wide.is_same_width in E. rewrite Hw, Hwr in E.
        unfold width_class in Hc. rewrite Hwr in Hc.
        destruct Hc as [-> | [-> | ->]]; try discriminate. now elim Hne.
    + rewrite (table_misses _ _ _ _ p Hm Hall m Hmt) in Hcm. discriminate.
Qed.

(** The ambiguous table contains an entry's code point exactly when the
    entry is not Narrow. *)
Lemma ambiguous_table_classifies es w p table :
  StronglySorted N.lt (map snd es) ->
  Forall (fun e => width_class (fst e)) es ->
  In (w, p) es ->
  ambiguous_table (runs (mkRange "N" 0 0) es) = Ok table ->
  existsb (fun m => contains m p) table = negb (String.eqb w "N").
Proof.
  intros Hsort Hcl Hin Ht.
  destruct (runs_tail es Hsort) as (Hs & Hwf & Hcov).
  assert (Hc : Forall (fun r => width_class (width r))
                      (tl (runs (mkRange "N" 0 0) es)))
    by (apply Forall_tl, runs_class; [now left | assumption]).
  unfold ambiguous_table in Ht.
  destruct (merge_ranges _ Ambiguous.is_same_width) as [merged |] eqn:Hm;
    [| discriminate].
  simpl in Ht. injection Ht as <-.
  destruct (String.eqb_spec w "N") as [-> | Hne]; simpl.
  - apply existsb_false_forall. intros m Hmt Hcm.
    pose proof Hmt as Hmt'. apply filter_In in Hmt'.
    destruct Hmt' as [Hmm Hkeep].
    assert (Hw : width m <> "N").
    { intros E. rewrite E in Hkeep. discriminate. }
    destruct (runs_tail_entry es "N" p Hsort Hin)
      as [(r & Hr & Hcr & Hwr) | [_ Hall]].
    + destruct (policy_sound _ ambiguous_same_by_width ambiguous_same_refl
                  _ _ r m p Hs Hwf Hc Hm Hr Hcr Hmm Hcm) as [E | E].
      * congruence.
      * unfold Ambiguous.is_same_width in E. rewrite Hwr in E. simpl in E.
        apply String.eqb_eq in E. contradiction.
    + rewrite (table_misses _ _ _ _ p Hm Hall m Hmt) in Hcm. discriminate.
  - destruct (Hcov w p Hin Hne) as (r & Hr & Hcon & Hwr).
    destruct (table_covers Ambiguous.is_same_width Ambiguous.width_skipped
                _ r p ambiguous_same_by_width Hs Hwf Hr Hcon)
      as (ma & Hma & Hea).
    { intros m [E | E].
      - rewrite E, Hwr. simpl. apply String.eqb_neq in Hne.
        now rewrite Hne.
      - unfold Ambiguous.is_same_width in E. rewrite Hwr in E.
        apply String.eqb_neq in Hne. rewrite Hne in E.
        simpl. destruct (String.eqb_spec (width m) "N") as [E' | _];
          [| reflexivity].
        rewrite E' in E. discriminate. }
    rewrite Hm in Hma. now injection Hma as <-.
Qed.

(** X9: over a stream in strictly increasing code-point order, the
    switch of _termpty_is_wide answers true on a code point of the
    stream exactly when its effective class is W. *)
Theorem is_wide_on_stream chars b ranges lines c p w :
  increasing (code_points chars) ->
  get_ranges chars b = Ok ranges ->
  gen_wide ranges = Ok lines ->
  In c chars -> cp c = Some p -> effective_class b c = Ok w ->
  switch_value lines p = String.eqb w "W".
Proof.
  intros Hinc Hg Hl Hc Hcp Hw.
  destruct (get_ranges_runs _ _ _ Hg) as (es & He & ->).
  destruct (entries_In _ _ _ _ _ He Hc Hcp) as (w' & Hw' & Hin).
  rewrite Hw in Hw'. injection Hw' as <-.
  destruct (gen_wide_labelled _ _ Hl) as (table & Ht & ->).
  rewrite switch_value_labelled.
  eapply wide_table_classifies; try eassumption.
  - rewrite (entries_code_points _ _ _ He). now apply increasing_strongly.
  - eapply entries_class, He.
Qed.

Lemma is_wide_on_stream_witness :
  switch_value [CaseSpan 9786 12288 ""] 161 = false /\
  switch_value [CaseSpan 9786 12288 ""] 9786 = true.
Proof.
  pose (chars := [mkChar (Some "Na") (Some 65) None;
                  mkChar (Some "A") (Some 161) None;
                  mkChar (Some "N") (Some 9786) (Some "Y");
                  mkChar (Some "W") (Some 12288) None]).
  split.
  - apply (is_wide_on_stream chars true
             [mkRange "N" 0 65; mkRange "A" 161 161; mkRange "W" 9786 12288]
             _ (mkChar (Some "A") (Some 161) None) 161 "A");
      try reflexivity; [repeat constructor | right; now left].
  - apply (is_wide_on_stream chars true
             [mkRange "N" 0 65; mkRange "A" 161 161; mkRange "W" 9786 12288]
             _ (mkChar (Some "N") (Some 9786) (Some "Y")) 9786 "W");
      try reflexivity; [repeat constructor | right; right; now left].
Defined.

(** X10: over a stream in strictly increasing code-point order, the
    switch of _termpty_is_ambigous_wide answers true on a code point of
    the stream exactly when its effective class is A or W. *)
Theorem is_ambiguous_wide_on_stream chars b ranges lines c p w :
  increasing (code_points chars) ->
  get_ranges chars b = Ok ranges ->
  gen_ambigous ranges = Ok lines ->
  In c chars -> cp c = Some p -> effective_class b c = Ok w ->
  switch_value lines p = negb (String.eqb w "N").
Proof.
  intros Hinc Hg Hl Hc Hcp Hw.
  destruct (get_ranges_runs _ _ _ Hg) as (es & He & ->).
  destruct (entries_In _ _ _ _ _ He Hc Hcp) as (w' & Hw' & Hin).
  rewrite Hw in Hw'. injection Hw' as <-.
  destruct (gen_ambigous_labelled _ _ Hl) as (table & Ht & ->).
  rewrite switch_value_labelled.
  eapply ambiguous_table_classifies; try eassumption.
  - rewrite (entries_code_points _ _ _ He). now apply increasing_strongly.
  - eapply entries_class, He.
Qed.

Lemma is_ambiguous_wide_on_stream_witness :
  switch_value [CaseSingle 161 EINA_FALLTHROUGH; CaseSpan 9786 12288 ""] 65
  = false /\
  switch_value [CaseSingle 161 EINA_FALLTHROUGH; CaseSpan 9786 12288 ""] 161
  = true.
Proof.
  pose (chars := [mkChar (Some "Na") (Some 65) None;
                  mkChar (Some "A") (Some 161) None;
                  mkChar (Some "N") (Some 180) None;
                  mkChar (Some "N") (Some 9786) (Some "Y");
                  mkChar (Some "W") (Some 12288) None]).
  split.
  - apply (is_ambiguous_wide_on_stream chars true
             [mkRange "N" 0 65; mkRange "A" 161 161; mkRange "N" 180 180;
              mkRange "W" 9786 12288]
             _ (mkChar (Some "Na") (Some 65) None) 65 "N");
      try reflexivity; [repeat constructor | now left].
  - apply (is_ambiguous_wide_on_stream chars true
             [mkRange "N" 0 65; mkRange "A" 161 161; mkRange "N" 180 180;
              mkRange "W" 9786 12288]
             _ (mkChar (Some "A") (Some 161) None) 161 "A");
      try reflexivity; [repeat constructor | right; now left].
Defined.

(** X11: over a stream in strictly increasing code-point order whose
    entry for code point 0, if any, is Narrow, the generated
    _termpty_is_dblwidth_get answers on every code point of the stream:
    true exactly for class W when cjk_ambiguous_wide is off, and exactly
    for classes A and W when it is on. *)
Theorem dblwidth_on_stream chars b ranges out c p w :
  increasing (code_points chars) ->
  zero_is_narrow chars b ->
  get_ranges chars b = Ok ranges ->
  gen_c ranges = Ok out ->
  In c chars -> cp c = Some p -> effective_class b c = Ok w ->
  termpty_is_dblwidth_get out false p = String.eqb w "W" /\
  termpty_is_dblwidth_get out true p = negb (String.eqb w "N").
Proof.
  intros Hinc Hz Hg Hgen Hc Hcp Hw.
  destruct (get_ranges_sorted _ _ _ Hinc Hz Hg) as [Hs _].
  destruct (get_ranges_runs _ _ _ Hg) as (es & He & ->).
  destruct (entries_In _ _ _ _ _ He Hc Hcp) as (w' & Hw' & Hin).
  rewrite Hw in Hw'. injection Hw' as <-.
  assert (Hsort : StronglySorted N.lt (map snd es)).
  { rewrite (entries_code_points _ _ _ He). now apply increasing_strongly. }
  pose proof (entries_class _ _ _ He) as Hcl.
  assert (Hab : above (mkRange "N" 0 0) es)
    by (eapply sentinel_above; eassumption).
  assert (Hwf : well_formed (mkRange "N" 0 0))
    by (unfold well_formed; simpl; lia).
  destruct (runs_cover _ _ w p Hwf Hab Hin) as (r & Hr & Hcr & Hwr).
  destruct (runs_head es (mkRange "N" 0 0)) as (rest & Hh).
  unfold gen_c in Hgen. rewrite Hh in Hgen, Hr, Hs.
  rewrite <- Hh in Hgen.
  destruct (gen_ambigous _) as [amb |] eqn:Ha; [| discriminate].
  destruct (gen_wide _) as [wide |] eqn:Hwd; [| discriminate].
  simpl in Hgen. injection Hgen as <-.
  unfold termpty_is_dblwidth_get. simpl.
  destruct (gen_ambigous_labelled _ _ Ha) as (ta & Hta & ->).
  destruct (gen_wide_labelled _ _ Hwd) as (tw & Htw & ->).
  rewrite !switch_value_labelled.
  rewrite (wide_table_classifies es w p tw Hsort Hcl Hin Htw).
  rewrite (ambiguous_table_classifies es w p ta Hsort Hcl Hin Hta).
  destruct (N.leb_spec p (run_end "N" 0 es)) as [Hle | Hgt];
    [| now split].
  assert (E : w = "N").
  { inversion Hs as [| ? ? _ Hall]; subst.
    destruct Hr as [<- | Hr]; [now symmetry |].
    rewrite Forall_forall in Hall. specialize (Hall r Hr).
    unfold before in Hall. simpl in Hall.
    apply contains_bounds in Hcr. lia. }
  rewrite E. split; reflexivity.
Qed.

Lemma dblwidth_on_stream_witness :
  exists out,
    main [mkChar (Some "Na") (Some 65) None;
          mkChar (Some "A") (Some 161) None;
          mkChar (Some "W") (Some 12288) None] = Ok out /\
    termpty_is_dblwidth_get out false 161 = false /\
    termpty_is_dblwidth_get out true 161 = true.
Proof.
  eexists. split; [reflexivity |].
  refine (dblwidth_on_stream
            [mkChar (Some "Na") (Some 65) None;
             mkChar (Some "A") (Some 161) None;
             mkChar (Some "W") (Some 12288) None] true _ _
            (mkChar (Some "A") (Some 161) None) 161 "A"
            _ _ eq_refl eq_refl _ eq_refl eq_refl).
  - repeat constructor.
  - intros c Hin H0. simpl in Hin.
    repeat (destruct Hin as [<- | Hin]; [discriminate |]). contradiction.
  - right. now left.
Defined.



(** * The wide table among the extracted ranges *)

Lemma wide_same_is_W x acc :
  width_class (width x) -> width_class (width acc) ->
  Wide.is_same_width x acc = Bool.eqb (is_W x) (is_W acc).
Proof. unfold Wide.is_same_width, is_W. intros Hx Ha. by_classes. Qed.

Lemma wide_kept_is_W r :
  width_class (width r) ->
  negb (in_tuple (Some (width r)) Wide.width_skipped) = is_W r.
Proof. unfold is_W. intros Hr. by_classes. Qed.

Lemma skip_ranges_cons r rs skipped :
  skip_ranges (r :: rs) skipped =
  if negb (in_tuple (Some (width r)) skipped)
  then r :: skip_ranges rs skipped else skip_ranges rs skipped.
Proof. reflexivity. Qed.

(** Where no two neighbours are both Wide, the wide policy merges only
    ranges that it then drops. *)
Lemma wide_fold_filter rs : forall acc,
  Forall (fun r => width_class (width r)) (acc :: rs) ->
  (forall (i : nat) r1 r2,
     nth_error (acc :: rs) i = Some r1 ->
     nth_error (acc :: rs) (S i) = Some r2 ->
     is_W r1 && is_W r2 = false) ->
  skip_ranges (fold_from Wide.is_same_width acc rs) Wide.width_skipped
  = filter is_W (acc :: rs).
Proof.
  induction rs as [| x rs IH]; intros acc Hc Hadj.
  - inversion Hc as [| ? ? Ha _]; subst. cbn [fold_from filter].
    rewrite skip_ranges_cons, (wide_kept_is_W _ Ha). reflexivity.
  - inversion Hc as [| ? ? Ha Hc']; subst.
    inversion Hc' as [| ? ? Hx Hc'']; subst.
    pose proof (Hadj 0%nat acc x eq_refl eq_refl) as Hne.
    cbn [fold_from]. rewrite (wide_same_is_W _ _ Hx Ha).
    destruct (is_W x) eqn:Ex, (is_W acc) eqn:Ea; try discriminate;
      cbn [Bool.eqb].
    + rewrite skip_ranges_cons, (wide_kept_is_W _ Ha), Ea, IH.
      * cbn [filter]. now rewrite Ea, Ex.
      * assumption.
      * intros i r1 r2 H1 H2. now apply (Hadj (S i)).
    + rewrite skip_ranges_cons, (wide_kept_is_W _ Ha), Ea, IH.
      * cbn [filter]. now rewrite Ea, Ex.
      * assumption.
      * intros i r1 r2 H1 H2. now apply (Hadj (S i)).
    + rewrite IH.
      * cbn [filter]. rewrite Ea, Ex.
        replace (is_W (replace_end acc (end_ x))) with (is_W acc)
          by reflexivity.
        now rewrite Ea.
      * constructor; assumption.
      * intros [| i] r1 r2 H1 H2.
        -- injection H1 as <-.
           replace (is_W (replace_end acc (end_ x))) with (is_W acc)
             by reflexivity.
           now rewrite Ea.
        -- now apply (Hadj (S (S i))).
Qed.

Lemma wide_table_runs es table :
  Forall (fun e => width_class (fst e)) es ->
  wide_table (runs (mkRange "N" 0 0) es) = Ok table ->
  table = filter is_W (tl (runs (mkRange "N" 0 0) es)).
Proof.
  intros Hcl Ht.
  assert (Hc : Forall (fun r => width_class (width r))
                      (tl (runs (mkRange "N" 0 0) es)))
    by (apply Forall_tl, runs_class; [now left | assumption]).
  pose proof (runs_adjacent es (mkRange "N" 0 0)) as Hadj.
  unfold wide_table in Ht.
  destruct (merge_ranges _ Wide.is_same_width) as [merged |] eqn:Hm;
    [| discriminate].
  simpl in Ht. injection Ht as <-.
  destruct (policy_fold _ wide_same_refl _ _ Hc Hm)
    as (r0 & rest' & Htl & ->).
  rewrite Htl in *. apply wide_fold_filter; [assumption |].
  intros i r1 r2 H1 H2.
  destruct (runs (mkRange "N" 0 0) es) as [| h tail]; [discriminate |].
  simpl in Htl. subst tail.
  pose proof (Hadj (S i) r1 r2 H1 H2) as Hne.
  unfold is_W.
  destruct (String.eqb_spec (width r1) "W") as [E1 | _]; [| reflexivity].
  destruct (String.eqb_spec (width r2) "W") as [E2 | _]; [| reflexivity].
  congruence.
Qed.

(** X13: the wide table is the list of the Wide ranges [get_ranges]
    returned after the placeholder, each with its own bounds: the wide
    policy never widens a range it keeps. *)
Theorem wide_table_is_wide_ranges chars b ranges table :
  get_ranges chars b = Ok ranges ->
  wide_table ranges = Ok table ->
  table = filter is_W (tl ranges).
Proof.
  intros Hg Ht. destruct (get_ranges_runs _ _ _ Hg) as (es & He & ->).
  apply wide_table_runs; [eapply entries_class, He | assumption].
Qed.

Lemma wide_table_is_wide_ranges_witness :
  [mkRange "W" 9786 9786; mkRange "W" 12288 12290]
  = filter is_W [mkRange "A" 161 161; mkRange "W" 9786 9786;
                 mkRange "N" 9800 9800; mkRange "A" 9801 9801;
                 mkRange "W" 12288 12290].
Proof.
  apply (wide_table_is_wide_ranges
           [mkChar (Some "Na") (Some 65) None;
            mkChar (Some "A") (Some 161) None;
            mkChar (Some "N") (Some 9786) (Some "Y");
            mkChar (Some "N") (Some 9800) None;
            mkChar (Some "A") (Some 9801) None;
            mkChar (Some "W") (Some 12288) None;
            mkChar (Some "F") (Some 12290) None] true
           [mkRange "N" 0 65; mkRange "A" 161 161; mkRange "W" 9786 9786;
            mkRange "N" 9800 9800; mkRange "A" 9801 9801;
            mkRange "W" 12288 12290]); reflexivity.
Defined.

(** X14: over a stream in strictly increasing code-point order, every
    value on which the switch of _termpty_is_wide answers true, a code
    point of the stream or not, also makes the switch of
    _termpty_is_ambigous_wide answer true. *)
Theorem wide_implies_ambiguous_wide chars b ranges wide amb g :
  increasing (code_points chars) ->
  get_ranges chars b = Ok ranges ->
  gen_wide ranges = Ok wide ->
  gen_ambigous ranges = Ok amb ->
  switch_value wide g = true -> switch_value amb g = true.
Proof.
  intros Hinc Hg Hw Ha Hsw.
  destruct (gen_wide_labelled _ _ Hw) as (tw & Htw & ->).
  destruct (gen_ambigous_labelled _ _ Ha) as (ta & Hta & ->).
  rewrite switch_value_labelled in *.
  destruct (get_ranges_runs _ _ _ Hg) as (es & He & ->).
  pose proof (wide_table_runs _ _ (entries_class _ _ _ He) Htw) as E.
  subst tw.
  apply existsb_exists in Hsw. destruct Hsw as (r & Hr & Hcon).
  apply filter_In in Hr. destruct Hr as [Hr HW].
  unfold is_W in HW. apply String.eqb_eq in HW.
  destruct (runs_tail es) as (Hs & Hwf & _).
  { rewrite (entries_code_points _ _ _ He). now apply increasing_strongly. }
  destruct (table_covers Ambiguous.is_same_width Ambiguous.width_skipped
              _ r g ambiguous_same_by_width Hs Hwf Hr Hcon)
    as (ma & Hma & Hea).
  { intros m [E | E].
    - rewrite E, HW. reflexivity.
    - unfold Ambiguous.is_same_width in E. rewrite HW in E. simpl in E.
      simpl. destruct (String.eqb_spec (width m) "N") as [E' | _];
        [| reflexivity].
      rewrite E' in E. discriminate. }
  unfold ambiguous_table in Hta. rewrite Hma in Hta. simpl in Hta.
  now injection Hta as <-.
Qed.

Lemma wide_implies_ambiguous_wide_witness :
  switch_value [CaseSingle 161 EINA_FALLTHROUGH; CaseSpan 12288 12290 ""]
               12289 = true.
Proof.
  apply (wide_implies_ambiguous_wide
           [mkChar (Some "Na") (Some 65) None;
            mkChar (Some "A") (Some 161) None;
            mkChar (Some "N") (Some 200) None;
            mkChar (Some "W") (Some 12288) None;
            mkChar (Some "F") (Some 12290) None] true
           [mkRange "N" 0 65; mkRange "A" 161 161; mkRange "N" 200 200;
            mkRange "W" 12288 12290]
           [CaseSpan 12288 12290 ""]); try reflexivity.
  repeat constructor.
Defined.

(** * When the run succeeds *)






(** X16: when the script succeeds the switch of
    _termpty_is_ambigous_wide has at least one case label. *)
Theorem ambiguous_cases_not_empty chars out :
  main chars = Ok out -> ambiguous_cases out <> [].
Proof.
  unfold main. intros Hm.
  destruct (get_ranges chars true) as [ranges |] eqn:Hg; [| discriminate].
  cbn [bind] in Hm.
  pose proof (get_ranges_class _ _ _ Hg) as Hc.
  destruct (get_ranges_runs _ _ _ Hg) as (es & He & ->).
  pose proof (runs_adjacent es (mkRange "N" 0 0)) as Hadj.
  destruct (runs_head es (mkRange "N" 0 0)) as (rest & Hh).
  rewrite Hh in Hc, Hm, Hadj. clear Hh Hg.
  destruct rest as [| r1 rest]; [discriminate |].
  pose proof (Hadj 0%nat _ r1 eq_refl eq_refl) as Hne. cbn [width] in Hne.
  inversion Hc as [| ? ? _ Hc']; subst.
  inversion Hc' as [| ? ? Hc1 _]; subst.
  unfold gen_c in Hm.
  destruct (gen_ambigous _) as [amb |] eqn:Ha; [| discriminate].
  destruct (gen_wide _) as [wide |]; [| discriminate].
  cbn [bind] in Hm. injection Hm as <-. cbn [ambiguous_cases].
  destruct (gen_ambigous_labelled _ _ Ha) as (ta & Hta & ->).
  unfold ambiguous_table in Hta. cbn [tl] in Hta.
  rewrite (merge_ranges_reflexive _ r1 rest (ambiguous_same_refl _ Hc1))
    in Hta.
  cbn [bind] in Hta. injection Hta as <-.
  destruct (fold_from_head Ambiguous.is_same_width rest r1)
    as (e & tail & ->).
  rewrite skip_ranges_cons. cbn [width].
  assert (Hk : in_tuple (Some (width r1)) Ambiguous.width_skipped = false).
  { simpl. destruct (String.eqb_spec (width r1) "N") as [E | _];
      [congruence | reflexivity]. }
  rewrite Hk. cbn [negb labelled].
  destruct (skip_ranges tail Ambiguous.width_skipped); discriminate.
Qed.

Lemma ambiguous_cases_not_empty_witness :
  [CaseSingle 161 ""] <> [].
Proof.
  apply (ambiguous_cases_not_empty
           [mkChar (Some "Na") (Some 65) None;
            mkChar (Some "A") (Some 161) None]
           (mkGenerated 65 [CaseSingle 161 ""] [])).
  reflexivity.
Defined.

(** The switch of _termpty_is_wide can be left without any label: a
    stream with Ambiguous but no Wide code point succeeds with an empty
    wide table. *)
Remark wide_cases_can_be_empty :
  main [mkChar (Some "Na") (Some 65) None;
        mkChar (Some "A") (Some 161) None]
  = Ok (mkGenerated 65 [CaseSingle 161 ""] []).
Proof. reflexivity. Qed.

(** * The hexadecimal literals of the generated code *)

Ltac eval_hex_digit :=
  match goal with
  | |- context [hex_digit ?c] =>
      let v := eval vm_compute in (hex_digit c) in
      change (hex_digit c) with v
  end.

Lemma read_hex_from_acc d : forall acc : positive,
  read_hex_from (hex_upper d) (Npos acc)
  = Some (Npos (Pos.of_hex_uint_acc d acc)).
Proof.
  induction d; intros acc;
    cbn [hex_upper read_hex_from Pos.of_hex_uint_acc];
    try reflexivity;
    eval_hex_digit; rewrite <- IHd; f_equal; cbn [N.mul N.add]; f_equal;
    try apply Pos.add_comm; reflexivity.
Qed.

Lemma read_hex_from_zero d :
  read_hex_from (hex_upper d) 0 = Some (Pos.of_hex_uint d).
Proof.
  induction d; cbn [hex_upper read_hex_from Pos.of_hex_uint];
    try reflexivity; eval_hex_digit; cbn [N.mul N.add];
    try exact IHd; apply read_hex_from_acc.
Qed.

Lemma hex_upper_not_empty d : d <> Hexadecimal.Nil -> hex_upper d <> "".
Proof. destruct d; intros H; try discriminate. now elim H. Qed.

Lemma to_hex_uint_not_nil n : N.to_hex_uint n <> Hexadecimal.Nil.
Proof.
  destruct n; [discriminate |]. apply HexadecimalPos.Unsigned.to_uint_nonnil.
Qed.

(** X17: the upper-case hexadecimal numeral written for a bound is not
    empty and, read as the digits of a C literal, has that bound as its
    value; hence different bounds are written differently. *)
Theorem format_X_read_back n :
  read_hex (format_X n) = Some n /\
  forall m, format_X m = format_X n -> m = n.
Proof.
  assert (H : forall k, read_hex (format_X k) = Some k).
  { intros k. unfold read_hex, format_X.
    pose proof (hex_upper_not_empty _ (to_hex_uint_not_nil k)) as Hne.
    destruct (hex_upper (N.to_hex_uint k)) as [| a s] eqn:E;
      [now elim Hne |].
    rewrite <- E, read_hex_from_zero.
    f_equal. apply HexadecimalN.Unsigned.of_to. }
  split; [apply H |].
  intros m E. pose proof (H m) as Hm. rewrite E, H in Hm. now injection Hm.
Qed.

Example format_X_scenario :
  format_X 0 = "0" /\ format_X 161 = "A1" /\ format_X 128512 = "1F600".
Proof. repeat split; reflexivity. Qed.

Lemma format_X_read_back_witness :
  read_hex "1F600" = Some 128512.
Proof. exact (proj1 (format_X_read_back 128512)). Defined.


